(** * sunpy.util.multimethod: a shallow embedding of [MultiMethod]

    The Python class [MultiMethod] of [sunpy/util/multimethod.py] keeps an
    ordered list [methods] of (signature, function) pairs and a dictionary
    [cache] from tuples of types to functions.  [add] and [add_dec] register
    functions, [__call__] and [super] dispatch on the types of the objects
    that the extractor [get] returns.

    Python's classes, with the builtins [issubclass], [__mro__], [__name__]
    and [repr], are the interface [PyClasses]; objects are the type [value];
    a method of the class is a function from the receiver to a [run], which
    holds the returned value or the raised exception, the receiver after the
    call and the warnings issued. *)

From Stdlib Require Import ZArith String.
From stdpp Require Import base option list gmap strings.

Local Open Scope string_scope.
Local Open Scope Z_scope.

(** ** The Python environment *)

(** What the module asks of the classes of the running interpreter. *)
Class PyClasses (cls : Type) `{Countable cls} := {
  (** [issubclass(a, b)] *)
  issubclass : cls → cls → bool;
  (** [c.__mro__] *)
  __mro__ : cls → list cls;
  (** [c.__name__] *)
  __name__ : cls → string;
  (** [repr(c)] *)
  repr : cls → string;
  (** the builtin type [super] *)
  super_type : cls;
}.

(** The exceptions that the module raises, each with the arguments it is
    built from: [None] is the bare [raise TypeError].  [UnboundLocalError] is
    what Python raises when a loop variable is read and the loop never ran. *)
Inductive exn :=
| TypeError (msg : option string)
| ValueError (msg : option string)
| IndexError (msg : option string)
| UnboundLocalError (msg : option string).

(** [class TypeWarning(UserWarning)], with the message given to [warn]. *)
Inductive warning :=
| TypeWarning (msg : string).

Inductive result (A : Type) :=
| Ok (a : A)
| Raise (e : exn).
Arguments Ok {A} a.
Arguments Raise {A} e.

Definition SILENT : Z := 0.
Definition WARN : Z := 1.
Definition FAIL : Z := 2.

Section multimethod.
Context {cls : Type} `{PyClasses cls}.
(** The registered functions.  They are opaque to the module, which only
    stores them and calls them. *)
Context {impl : Type}.

(** Objects: an instance of a class, or what [super(thisclass, self)]
    builds.  The instances of [super] are exactly the [Super] values. *)
Inductive value :=
| Obj (ty : cls) (ident : nat)
| Super (__thisclass__ : cls) (__self__ : value).

(** [type(x)] *)
Definition type_ (x : value) : cls :=
  match x with
  | Obj ty _ => ty
  | Super _ _ => super_type
  end.

(** [isinstance(x, super)] *)
Definition isinstance_super (x : value) : bool :=
  match x with
  | Obj _ _ => false
  | Super _ _ => true
  end.

(** The call [fun] on [args] and [kwargs] that [__call__] and [super] end in:
    which function is called, on which arguments. *)
Inductive tailcall :=
| Invoke (fun_ : impl) (args : list value) (kwargs : gmap string value).

Record MultiMethod := mk {
  get : list value → gmap string value → list value;
  methods : list (list cls * impl);
  cache : gmap (list cls) impl;
}.

(** A call of a method on a receiver: the result, the receiver afterwards
    and the warnings issued, oldest first. *)
Record run (A : Type) := Run {
  outcome : result A;
  final : MultiMethod;
  warnings : list warning;
}.
Arguments Run {A} outcome final warnings.
Arguments outcome {A} r.
Arguments final {A} r.
Arguments warnings {A} r.

(** [_fmt_t(types)] *)
Definition _fmt_t (types : list cls) : string :=
  String.concat ", " (__name__ <$> types).

(** [MultiMethod.__init__] *)
Definition __init__ (get : list value → gmap string value → list value)
  : MultiMethod :=
  mk get [] ∅.

(** [all(issubclass(a, b) for a, b in zip(types, signature))]: [zip] stops
    at the end of the shorter sequence.  [add] writes it with [izip],
    [__call__] and [super] with [zip]. *)
Definition all_issubclass (types signature : list cls) : bool :=
  forallb (λ ab, issubclass ab.1 ab.2) (zip types signature).

(** The loop of [add]
<<
    for signature, _ in self.methods:
        if all(issubclass(a, b) for a, b in izip(types, signature)):
            overriden = True
>>
    from [overriden = False]: it has no [break], so [signature] is left
    bound to the last signature of [self.methods], or unbound when there is
    none. *)
Definition add_loop (types : list cls) (ms : list (list cls * impl))
  : bool * option (list cls) :=
  fold_left
    (λ st m, (if all_issubclass types m.1 then true else st.1, Some m.1))
    ms (false, None).

(** The first four lines of [add]: [overriden = False], then the loop
    under [if override:], which an integer passes when it is not zero.
    The result is [overriden] and what [signature] is bound to. *)
Definition add_overriden (self : MultiMethod) (types : list cls)
    (override : Z) : bool * option (list cls) :=
  if bool_decide (override ≠ 0) then add_loop types (methods self)
  else (false, None).

(** [MultiMethod.add(self, fun, types, override=SILENT)] *)
Definition add (self : MultiMethod) (fun_ : impl) (types : list cls)
    (override : Z) : run unit :=
  let st := add_overriden self types override in
  let overriden := st.1 in
  let appended :=
    mk (get self) (methods self ++ [(types, fun_)]) (cache self) in
  if overriden && (override =? FAIL) then
    Run (Raise (TypeError None)) self []
  else if overriden && (override =? WARN) then
    match st.2 with
    | Some signature =>
        Run (Ok ()) appended
          [TypeWarning ("Definition (" +:+ _fmt_t types +:+
                        ") overrides prior definition (" +:+
                        _fmt_t signature +:+ ").")]
    | None => Run (Raise (UnboundLocalError None)) self []
    end
  else if overriden then
    Run (Raise (ValueError (Some "Invalid value for override."))) self []
  else Run (Ok ()) appended [].

(** [self.cache = {}], the statement that [add_dec] starts with. *)
Definition clear_cache (self : MultiMethod) : MultiMethod :=
  mk (get self) (methods self) ∅.

(** The closure [_dec] that [add_dec] returns: it holds [types] and
    [kwargs]. *)
Record _dec := Dec {
  dec_types : list cls;
  dec_kwargs : gmap string Z;
}.

(** [MultiMethod.add_dec(self, *types, **kwargs)] *)
Definition add_dec (self : MultiMethod) (types : list cls)
    (kwargs : gmap string Z) : run _dec :=
  Run (Ok (Dec types kwargs)) (clear_cache self) [].

(** The call [_dec(fun)], which returns [fun]. *)
Definition call_dec (d : _dec) (self : MultiMethod) (fun_ : impl)
  : run impl :=
  let r := add self fun_ (dec_types d)
               (default SILENT (dec_kwargs d !! "override")) in
  match outcome r with
  | Ok _ => Run (Ok fun_) (final r) (warnings r)
  | Raise e => Run (Raise e) (final r) (warnings r)
  end.

(** The decorator form [@mm.add_dec] with [types] and [kwargs] over [def fun]:
    [add_dec] is called, then the closure it returns. *)
Definition decorate (self : MultiMethod) (types : list cls)
    (kwargs : gmap string Z) (fun_ : impl) : run impl :=
  let r := add_dec self types kwargs in
  match outcome r with
  | Ok d => call_dec d (final r) fun_
  | Raise e => Run (Raise e) (final r) (warnings r)
  end.

(** The loop of [__call__] and [super]
<<
    for signature, fun in reversed(self.methods):
        if all(issubclass(ty, sig) for ty, sig in zip(types, signature)):
            self.cache[types] = fun
            return fun(...)
>>
    over the sequence it is given: the function of the first pair whose
    signature passes, or [None] when the loop ends. *)
Fixpoint dispatch_loop (types : list cls) (ms : list (list cls * impl))
  : option impl :=
  match ms with
  | [] => None
  | (signature, fun_) :: rest =>
      if all_issubclass types signature then Some fun_
      else dispatch_loop types rest
  end.

(** ['%r' % types]: the tuple [types] is the argument list of the format,
    which has one conversion.  A tuple of any other length makes the
    operator [%] raise [TypeError]. *)
Definition percent_r (types : list cls) : result string :=
  match types with
  | [] => Raise (TypeError (Some "not enough arguments for format string"))
  | [ty] => Ok (repr ty)
  | _ :: _ :: _ =>
      Raise (TypeError
        (Some "not all arguments converted during string formatting"))
  end.

(** [MultiMethod.__call__(self, *args, **kwargs)] *)
Definition __call__ (self : MultiMethod) (args : list value)
    (kwargs : gmap string value) : run tailcall :=
  let objs := get self args kwargs in
  let types := type_ <$> objs in
  match cache self !! types with
  | Some cached => Run (Ok (Invoke cached args kwargs)) self []
  | None =>
      match dispatch_loop types (reverse (methods self)) with
      | Some fun_ =>
          Run (Ok (Invoke fun_ args kwargs))
              (mk (get self) (methods self) (<[types := fun_]> (cache self)))
              []
      | None =>
          match percent_r types with
          | Ok s => Run (Raise (TypeError (Some s))) self []
          | Raise e => Run (Raise e) self []
          end
      end
  end.

(** [x.__thisclass__.__mro__[1] if isinstance(x, super) else type(x)];
    the index raises [IndexError] on a one-element [__mro__]. *)
Definition super_type_of (x : value) : result cls :=
  match x with
  | Super thisclass _ =>
      match __mro__ thisclass !! 1%nat with
      | Some c => Ok c
      | None => Raise (IndexError (Some "tuple index out of range"))
      end
  | Obj ty _ => Ok ty
  end.

(** The list comprehension over [objs], left to right. *)
Fixpoint super_types (objs : list value) : result (list cls) :=
  match objs with
  | [] => Ok []
  | x :: rest =>
      match super_type_of x with
      | Raise e => Raise e
      | Ok c =>
          match super_types rest with
          | Raise e => Raise e
          | Ok cs => Ok (c :: cs)
          end
      end
  end.

(** [x.__self__ if isinstance(x, super) else x] *)
Definition unwrap (x : value) : value :=
  match x with
  | Super _ self => self
  | Obj _ _ => x
  end.

(** [MultiMethod.super(self, *args, **kwargs)] *)
Definition super (self : MultiMethod) (args : list value)
    (kwargs : gmap string value) : run tailcall :=
  let objs := get self args kwargs in
  match super_types objs with
  | Raise e => Run (Raise e) self []
  | Ok types =>
      let nargs := unwrap <$> args in
      let kwargs := unwrap <$> kwargs in
      match cache self !! types with
      | Some cached => Run (Ok (Invoke cached nargs kwargs)) self []
      | None =>
          match dispatch_loop types (reverse (methods self)) with
          | Some fun_ =>
              Run (Ok (Invoke fun_ nargs kwargs))
                  (mk (get self) (methods self)
                      (<[types := fun_]> (cache self)))
                  []
          | None => Run (Raise (TypeError None)) self []
          end
      end
  end.

(** ** Notions used in the statements *)

(** At every position that both tuples have, the type on the left is a
    subclass of the type on the right. *)
Definition positionwise (types signature : list cls) : Prop :=
  ∀ i a b,
    types !! i = Some a → signature !! i = Some b → issubclass a b = true.

(** The two tuples agree on their common prefix: at every position below
    the length of the shorter one, the type on the left is a subclass of the
    type on the right.  Nothing is asked of the positions that only the
    longer tuple has. *)
Definition agree_on_common_prefix (types signature : list cls) : Prop :=
  ∀ i a b,
    (i < length types `min` length signature)%nat →
    types !! i = Some a → signature !! i = Some b → issubclass a b = true.

(** Some registered signature lies positionwise at or above [types]. *)
Definition conflicts (self : MultiMethod) (types : list cls) : Prop :=
  ∃ signature fun_,
    (signature, fun_) ∈ methods self ∧ positionwise types signature.

(** The types that [__call__] dispatches on. *)
Definition call_types (self : MultiMethod) (args : list value)
    (kwargs : gmap string value) : list cls :=
  type_ <$> get self args kwargs.

(** Every cache entry is what the loop of [__call__] finds for its key in
    the registry as it is now. *)
Definition coherent (self : MultiMethod) : Prop :=
  ∀ types fun_,
    cache self !! types = Some fun_ →
    dispatch_loop types (reverse (methods self)) = Some fun_.

(** Every cache entry is the function of a registration whose signature
    passes for the key. *)
Definition sound (self : MultiMethod) : Prop :=
  ∀ types fun_,
    cache self !! types = Some fun_ →
    ∃ signature,
      (signature, fun_) ∈ methods self
      ∧ all_issubclass types signature = true.

(** The receivers that a program can build: from a new [MultiMethod], by
    calls of its four methods and of the closures of [add_dec]. *)
Inductive reachable : MultiMethod → Prop :=
| reachable_init get_ :
    reachable (__init__ get_)
| reachable_add self fun_ types override :
    reachable self → reachable (final (add self fun_ types override))
| reachable_add_dec self types kwargs :
    reachable self → reachable (final (add_dec self types kwargs))
| reachable_call self args kwargs :
    reachable self → reachable (final (__call__ self args kwargs))
| reachable_super self args kwargs :
    reachable self → reachable (final (super self args kwargs)).

(** The receivers built with the decorator form as the only way to
    register. *)
Inductive decorated : MultiMethod → Prop :=
| decorated_init get_ :
    decorated (__init__ get_)
| decorated_decorate self types kwargs fun_ :
    decorated self → decorated (final (decorate self types kwargs fun_))
| decorated_call self args kwargs :
    decorated self → decorated (final (__call__ self args kwargs))
| decorated_super self args kwargs :
    decorated self → decorated (final (super self args kwargs)).

End multimethod.

Arguments Run {cls _ _ impl A} outcome final warnings.
Arguments outcome {cls _ _ impl A} r.
Arguments final {cls _ _ impl A} r.
Arguments warnings {cls _ _ impl A} r.
Arguments run cls {_ _} impl A.
Arguments MultiMethod cls {_ _} impl.
Arguments value cls : clear implicits.
Arguments tailcall cls impl : clear implicits.
Arguments _dec cls : clear implicits.

(** ** A small class hierarchy

    [object], the builtin [super], [numbers.Number] with [int] registered
    under it, and two classes of a program, [class Animal(object)] and
    [class Dog(Animal)]. *)
Module Zoo.

Inductive pycls := object | super_t | Number | int | Animal | Dog.

#[global] Instance pycls_eq_dec : EqDecision pycls.
Proof. solve_decision. Defined.

Definition pycls_code (c : pycls) : nat :=
  match c with
  | object => 0 | super_t => 1 | Number => 2
  | int => 3 | Animal => 4 | Dog => 5
  end%nat.

Definition pycls_of_code (n : nat) : pycls :=
  match n with
  | 0 => object | 1 => super_t | 2 => Number
  | 3 => int | 4 => Animal | _ => Dog
  end%nat.

#[global] Instance pycls_countable : Countable pycls.
Proof.
  apply (inj_countable' pycls_code pycls_of_code).
  intros []; reflexivity.
Defined.

Definition zoo_mro (c : pycls) : list pycls :=
  match c with
  | object => [object]
  | Dog => [Dog; Animal; object]
  | c => [c; object]
  end.

(** [issubclass] follows [__mro__], and [int] is registered as a virtual
    subclass of the abstract class [Number]. *)
Definition zoo_issubclass (a b : pycls) : bool :=
  bool_decide (b ∈ zoo_mro a) || (bool_decide (a = int) && bool_decide (b = Number)).

Definition zoo_name (c : pycls) : string :=
  match c with
  | object => "object" | super_t => "super" | Number => "Number"
  | int => "int" | Animal => "Animal" | Dog => "Dog"
  end.

Definition zoo_repr (c : pycls) : string :=
  match c with
  | object => "<type 'object'>" | super_t => "<type 'super'>"
  | Number => "<class 'numbers.Number'>" | int => "<type 'int'>"
  | Animal => "<class '__main__.Animal'>" | Dog => "<class '__main__.Dog'>"
  end.

#[global] Instance zoo_classes : PyClasses pycls := {|
  issubclass := zoo_issubclass;
  __mro__ := zoo_mro;
  __name__ := zoo_name;
  repr := zoo_repr;
  super_type := super_t;
|}.

(** Functions are named by strings here. *)
Definition engine := MultiMethod pycls string.

(** [get = lambda *a, **kw: a]: dispatch on the positional arguments. *)
Definition positional (args : list (value pycls))
    (kwargs : gmap string (value pycls)) : list (value pycls) := args.

Definition rex : value pycls := Obj Dog 7.
Definition seven : value pycls := Obj int 0.


(** [(int,)] registered first, the wider [(Number,)] after it. *)
Definition number_after_int : engine :=
  final (add (final (add (__init__ positional) "on_int" [int] SILENT))
             "on_number" [Number] SILENT).

(** [(Number,)] registered, a call on an [int], then [(int,)] added with
    the plain [add]. *)
Definition number_only : engine :=
  final (add (__init__ positional) "on_number" [Number] SILENT).

Definition int_added_late : engine :=
  final (add (final (__call__ number_only [seven] ∅))
             "on_int" [int] SILENT).

(** The same registrations made with the decorator form, and a call. *)
Definition int_decorated_late : engine :=
  final (__call__
    (final (decorate
       (final (__call__
          (final (decorate (__init__ positional) [Number] ∅ "on_number"))
          [seven] ∅))
       [int] ∅ "on_int"))
    [seven] ∅).

(** [(Animal,)] registered, then [(Dog,)]. *)
Definition animal_then_dog : engine :=
  final (add (final (add (__init__ positional) "on_animal" [Animal] SILENT))
             "on_dog" [Dog] SILENT).

(** [(Number,)] registered, then the unrelated [(Animal,)]. *)
Definition number_then_animal : engine :=
  final (add (final (add (__init__ positional) "on_number" [Number] SILENT))
             "on_animal" [Animal] SILENT).

(** [(int,)] registered once under [FAIL]. *)
Definition int_once : engine :=
  final (add (__init__ positional) "first" [int] FAIL).

End Zoo.


(** * sunpy.lightcurve.lightcurve: the constructors of [LightCurve]

    The class methods of [LightCurve] that build a light curve from a file,
    a URL or a time.  Each of them reaches the other methods through [cls],
    so what it does depends on the class it is called on: a class is given
    here by its name and by the definitions that it has of the attributes
    that these methods look up on [cls], an attribute without a definition
    being inherited from [LightCurve].  What is not in the module,
    [sunpy.time.parse_time] and the functions of [os.path] and [str], is a
    variable of the section, and so is what the static method [_download] of
    [LightCurve] itself returns, which depends on the network and the file
    system. *)
Module LightCurve.

(** The exceptions raised in the module or caught by it.  [HTTPError] is a
    subclass of [URLError]; [OtherError] is an exception of any class that
    is none of these nor a subclass of [ValueError] or [URLError]. *)
Inductive exn :=
| NotImplementedError (msg : string)
| ValueError (msg : string)
| URLError (reason : string)
| HTTPError (msg : string)
| OtherError (class_name : string).

Inductive res (A : Type) :=
| Ret (a : A)
| Exc (e : exn).
Arguments Ret {A} a.
Arguments Exc {A} e.

Section lightcurve.
(** The Python objects that pass through: times, data, headers. *)
Context {pyobj : Type}.
(** [sunpy.time.parse_time] *)
Variable parse_time : pyobj → res pyobj.
(** [os.path.expanduser], [os.path.splitext] and [str.lower] *)
Variable expanduser : string → string.
Variable splitext : string → string * string.
Variable lower : string → string.
(** The static method [LightCurve._download(uri, kwargs, err)] *)
Variable LightCurve_download :
  string → gmap string pyobj → string → res string.

(** An object built by [LightCurve.__init__]: its class and the two
    attributes that [__init__] sets. *)
Record lightcurve := New {
  class_name : string;
  data : pyobj;
  header : pyobj;
}.

(** A class, [LightCurve] or a subclass of it: its [__name__] and, for each
    attribute that the constructors look up on [cls], the definition that
    the class has of it, if it has one. *)
Record klass := Klass {
  cls__name__ : string;
  def__init__ : option (pyobj → pyobj → res lightcurve);
  def_get_default_uri : option (res string);
  def_get_url_for_date : option (pyobj → res string);
  def_download : option (string → gmap string pyobj → string → res string);
  def_parse_csv : option (string → res (pyobj * pyobj));
  def_parse_fits : option (string → res (pyobj * pyobj));
  def_parse_filepath : option (string → res (pyobj * pyobj));
  def_from_file : option (string → res lightcurve);
  def_from_url : option (string → gmap string pyobj → res lightcurve);
}.

(** [class LightCurve(object)] itself: nothing is defined anew. *)
Definition LightCurve : klass :=
  Klass "LightCurve" None None None None None None None None None.

(** [cls(data, header)] *)
Definition cls_new (cls : klass) (data header : pyobj) : res lightcurve :=
  match def__init__ cls with
  | Some m => m data header
  | None => Ret (New (cls__name__ cls) data header)
  end.

(** [LightCurve._get_default_uri(cls)] *)
Definition _get_default_uri (cls : klass) : res string :=
  Exc (NotImplementedError ("No default action set for " +:+ cls__name__ cls)).

(** [cls._get_default_uri()] *)
Definition cls_get_default_uri (cls : klass) : res string :=
  match def_get_default_uri cls with
  | Some m => m
  | None => _get_default_uri cls
  end.

(** [LightCurve._get_url_for_date(cls, date)] *)
Definition _get_url_for_date (cls : klass) (date : pyobj) : res string :=
  Exc (NotImplementedError
         ("Date-based downloads not supported for for " +:+ cls__name__ cls)).

(** [cls._get_url_for_date(date)] *)
Definition cls_get_url_for_date (cls : klass) (date : pyobj) : res string :=
  match def_get_url_for_date cls with
  | Some m => m date
  | None => _get_url_for_date cls date
  end.

(** [cls._download(uri, kwargs, err)] *)
Definition cls_download (cls : klass) (uri : string)
    (kwargs : gmap string pyobj) (err : string) : res string :=
  match def_download cls with
  | Some m => m uri kwargs err
  | None => LightCurve_download uri kwargs err
  end.

(** The default of the parameter [err] of [_download]. *)
Definition _download_err : string :=
  "Unable to download data at specified URL".

(** [LightCurve._parse_csv(filepath)] *)
Definition _parse_csv (filepath : string) : res (pyobj * pyobj) :=
  Exc (NotImplementedError
         "Generic CSV parsing not yet implemented for LightCurve").

(** [cls._parse_csv(filepath)] *)
Definition cls_parse_csv (cls : klass) (filepath : string)
  : res (pyobj * pyobj) :=
  match def_parse_csv cls with
  | Some m => m filepath
  | None => _parse_csv filepath
  end.

(** [LightCurve._parse_fits(filepath)] *)
Definition _parse_fits (filepath : string) : res (pyobj * pyobj) :=
  Exc (NotImplementedError
         "Generic FITS parsing not yet implemented for LightCurve").

(** [cls._parse_fits(filepath)] *)
Definition cls_parse_fits (cls : klass) (filepath : string)
  : res (pyobj * pyobj) :=
  match def_parse_fits cls with
  | Some m => m filepath
  | None => _parse_fits filepath
  end.

(** [LightCurve._parse_filepath(cls, filepath)] *)
Definition _parse_filepath (cls : klass) (filepath : string)
  : res (pyobj * pyobj) :=
  let extension := (splitext filepath).2 in
  if bool_decide (lower extension ∈ [".csv"; ".txt"]) then
    cls_parse_csv cls filepath
  else cls_parse_fits cls filepath.

(** [cls._parse_filepath(filepath)] *)
Definition cls_parse_filepath (cls : klass) (filepath : string)
  : res (pyobj * pyobj) :=
  match def_parse_filepath cls with
  | Some m => m filepath
  | None => _parse_filepath cls filepath
  end.

(** [LightCurve.from_file(cls, filename)] *)
Definition from_file (cls : klass) (filename : string) : res lightcurve :=
  let filename := expanduser filename in
  match cls_parse_filepath cls filename with
  | Exc e => Exc e
  | Ret (header, data) => cls_new cls data header
  end.

(** [cls.from_file(filename)] *)
Definition cls_from_file (cls : klass) (filename : string) : res lightcurve :=
  match def_from_file cls with
  | Some m => m filename
  | None => from_file cls filename
  end.

(** [LightCurve.from_url(cls, url, **kwargs)] *)
Definition from_url (cls : klass) (url : string)
    (kwargs : gmap string pyobj) : res lightcurve :=
  match cls_download cls url kwargs _download_err with
  | Exc (HTTPError _) | Exc (URLError _) | Exc (ValueError _) =>
      Exc (ValueError
        "Unable to read location. Did you specify a valid filepath or URL?")
  | Exc e => Exc e
  | Ret filepath => cls_from_file cls filepath
  end.

(** [cls.from_url(url)] *)
Definition cls_from_url (cls : klass) (url : string)
    (kwargs : gmap string pyobj) : res lightcurve :=
  match def_from_url cls with
  | Some m => m url kwargs
  | None => from_url cls url kwargs
  end.

(** [LightCurve.from_time(cls, time, **kwargs)] *)
Definition from_time (cls : klass) (time : pyobj)
    (kwargs : gmap string pyobj) : res lightcurve :=
  match parse_time time with
  | Exc e => Exc e
  | Ret date =>
      match cls_get_url_for_date cls date with
      | Exc e => Exc e
      | Ret url =>
          match cls_download cls url kwargs
                  "Unable to download data for  specified date" with
          | Exc e => Exc e
          | Ret filepath => cls_from_file cls filepath
          end
      end
  end.

(** [LightCurve.from_yesterday(cls)] *)
Definition from_yesterday (cls : klass) : res lightcurve :=
  match cls_get_default_uri cls with
  | Exc e => Exc e
  | Ret uri => cls_from_url cls uri ∅
  end.

End lightcurve.

End LightCurve.


(** ** Histories of a receiver *)
Section lifecycle.
Context {cls : Type} `{PyClasses cls} {impl : Type}.

(** [evolves self self']: calls of the methods of the class, and of the
    closures of [add_dec], which are calls of [add], take the receiver from
    [self] to [self']. *)
Inductive evolves : MultiMethod cls impl → MultiMethod cls impl → Prop :=
| evolves_refl self :
    evolves self self
| evolves_add self self' fun_ types override :
    evolves self self' →
    evolves self (final (add self' fun_ types override))
| evolves_add_dec self self' types kwargs :
    evolves self self' →
    evolves self (final (add_dec self' types kwargs))
| evolves_call self self' args kwargs :
    evolves self self' →
    evolves self (final (__call__ self' args kwargs))
| evolves_super self self' args kwargs :
    evolves self self' →
    evolves self (final (super self' args kwargs)).

(** The receivers that have been registered with and not yet called. *)
Inductive built : MultiMethod cls impl → Prop :=
| built_init get_ :
    built (__init__ get_)
| built_add self fun_ types override :
    built self → built (final (add self fun_ types override))
| built_add_dec self types kwargs :
    built self → built (final (add_dec self types kwargs)).

(** The receivers whose registrations all came before the first call. *)
Inductive served : MultiMethod cls impl → Prop :=
| served_built self :
    built self → served self
| served_call self args kwargs :
    served self → served (final (__call__ self args kwargs))
| served_super self args kwargs :
    served self → served (final (super self args kwargs)).

End lifecycle.


(** ** Properties of the embedding *)

Local Close Scope string_scope.

Section facts.
Context {cls : Type} `{PyClasses cls} {impl : Type}.
Implicit Types (self : MultiMethod cls impl) (types signature : list cls).
Implicit Types (ms : list (list cls * impl)) (f g : impl).
Implicit Types (args : list (value cls)) (kwargs : gmap string (value cls)).
Implicit Types (opts : gmap string Z).

(** *** The test on a pair of tuples *)

Lemma all_issubclass_nil_r types : all_issubclass types [] = true.
Proof. unfold all_issubclass. by rewrite zip_with_nil_r. Qed.

Lemma all_issubclass_nil_l signature : all_issubclass [] signature = true.
Proof. reflexivity. Qed.

Lemma all_issubclass_cons a types b signature :
  all_issubclass (a :: types) (b :: signature)
  = issubclass a b && all_issubclass types signature.
Proof. reflexivity. Qed.

Lemma all_issubclass_positionwise types signature :
  all_issubclass types signature = true ↔ positionwise types signature.
Proof.
  revert signature. induction types as [|a types IH]; intros [|b signature].
  - split; [|done]. intros _ i a b Ha. by rewrite lookup_nil in Ha.
  - split; [|done]. intros _ i a b' Ha. by rewrite lookup_nil in Ha.
  - rewrite all_issubclass_nil_r. split; [|done].
    intros _ i a' b _ Hb. by rewrite lookup_nil in Hb.
  - rewrite all_issubclass_cons, andb_true_iff, IH. split.
    + intros [Hab Hrest] [|i] a' b'; simpl.
      * by intros [= <-] [= <-].
      * apply Hrest.
    + intros Hpos. split.
      * by apply (Hpos 0%nat).
      * intros i a' b'. apply (Hpos (S i)).
Qed.

Lemma all_issubclass_take types signature :
  all_issubclass types signature
  = all_issubclass
      (take (length types `min` length signature) types)
      (take (length types `min` length signature) signature).
Proof.
  revert signature. induction types as [|a types IH]; intros [|b signature];
    try reflexivity.
  simpl. rewrite !all_issubclass_cons. by rewrite <- IH.
Qed.

Lemma all_issubclass_app_l types extra signature :
  length types = length signature →
  all_issubclass (types ++ extra) signature = all_issubclass types signature.
Proof.
  revert signature. induction types as [|a types IH]; intros [|b signature];
    simpl; try done.
  - intros _. by rewrite all_issubclass_nil_r.
  - intros [= Hlen]. rewrite !all_issubclass_cons. by rewrite IH.
Qed.

Lemma all_issubclass_app_r types signature extra :
  length types = length signature →
  all_issubclass types (signature ++ extra) = all_issubclass types signature.
Proof.
  revert signature. induction types as [|a types IH]; intros [|b signature];
    simpl; try done.
  intros [= Hlen]. rewrite !all_issubclass_cons. by rewrite IH.
Qed.

(** *** The loop of [__call__] and [super] *)

Lemma dispatch_loop_None types ms :
  dispatch_loop types ms = None
  ↔ Forall (λ m, all_issubclass types m.1 = false) ms.
Proof.
  induction ms as [|[signature f] ms IH]; simpl.
  - split; [constructor | done].
  - destruct (all_issubclass types signature) eqn:Hm.
    + split; [done|]. intros Hall. apply Forall_cons in Hall as [Hf _].
      simpl in Hf. congruence.
    + rewrite IH. split.
      * intros Hall. by constructor.
      * intros Hall. by apply Forall_cons in Hall as [_ ?].
Qed.

(** The loop returns the function of the first pair that passes. *)
Lemma dispatch_loop_Some types ms f :
  dispatch_loop types ms = Some f
  ↔ ∃ before signature after,
      ms = before ++ (signature, f) :: after
      ∧ all_issubclass types signature = true
      ∧ Forall (λ m, all_issubclass types m.1 = false) before.
Proof.
  induction ms as [|[signature g] ms IH]; simpl.
  - split; [done|]. intros (before & ? & ? & Heq & _).
    by destruct before.
  - destruct (all_issubclass types signature) eqn:Hm.
    + split.
      * intros [= ->]. by exists [], signature, ms.
      * intros ([|m before] & sig' & after & Heq & Hsig & Hbefore).
        -- by injection Heq as -> ->.
        -- injection Heq as <- _. apply Forall_cons in Hbefore as [Hf _].
           simpl in Hf. congruence.
    + rewrite IH. split.
      * intros (before & sig' & after & -> & Hsig & Hbefore).
        exists ((signature, g) :: before), sig', after.
        split_and!; [done..|]. by constructor.
      * intros ([|m before] & sig' & after & Heq & Hsig & Hbefore).
        -- injection Heq as <- _. congruence.
        -- injection Heq as <- ->.
           apply Forall_cons in Hbefore as [_ Hbefore]. by eauto 6.
Qed.

(** Over [reversed(self.methods)], the first pair that passes is the last
    registered one that passes. *)
Lemma dispatch_loop_reverse_Some types ms f :
  dispatch_loop types (reverse ms) = Some f
  ↔ ∃ earlier signature later,
      ms = earlier ++ (signature, f) :: later
      ∧ all_issubclass types signature = true
      ∧ Forall (λ m, all_issubclass types m.1 = false) later.
Proof.
  rewrite dispatch_loop_Some. split.
  - intros (before & signature & after & Heq & Hsig & Hbefore).
    exists (reverse after), signature, (reverse before).
    split_and!; [|done|by rewrite Forall_reverse].
    rewrite <- (reverse_involutive ms), Heq.
    by rewrite reverse_app, reverse_cons, <- app_assoc.
  - intros (earlier & signature & later & -> & Hsig & Hlater).
    exists (reverse later), signature, (reverse earlier).
    split_and!; [|done|by rewrite Forall_reverse].
    by rewrite reverse_app, reverse_cons, <- app_assoc.
Qed.

Lemma dispatch_loop_reverse_None types ms :
  dispatch_loop types (reverse ms) = None
  ↔ Forall (λ m, all_issubclass types m.1 = false) ms.
Proof. by rewrite dispatch_loop_None, Forall_reverse. Qed.

Lemma dispatch_loop_reverse_snoc types ms signature f :
  dispatch_loop types (reverse (ms ++ [(signature, f)]))
  = if all_issubclass types signature then Some f
    else dispatch_loop types (reverse ms).
Proof. by rewrite reverse_app. Qed.

(** *** The loop of [add] *)

Lemma add_loop_snoc types ms signature f :
  add_loop types (ms ++ [(signature, f)])
  = (if all_issubclass types signature then true
     else (add_loop types ms).1, Some signature).
Proof. unfold add_loop. by rewrite fold_left_app. Qed.

Lemma add_loop_overriden types ms :
  (add_loop types ms).1 = true
  ↔ Exists (λ m, all_issubclass types m.1 = true) ms.
Proof.
  induction ms as [|[signature f] ms IH] using rev_ind.
  - split; [done|]. by intros ?%Exists_nil.
  - rewrite add_loop_snoc, Exists_app, Exists_cons, Exists_nil, <- IH. simpl.
    destruct (all_issubclass types signature); intuition discriminate.
Qed.

(** After the loop, [signature] is the last registered signature. *)
Lemma add_loop_signature types ms :
  (add_loop types ms).2 = last ms.*1.
Proof.
  destruct ms as [|m ms _] using rev_ind; [done|].
  destruct m as [signature f].
  rewrite add_loop_snoc, fmap_app. simpl. by rewrite last_snoc.
Qed.

Lemma conflicts_Exists self types :
  conflicts self types
  ↔ Exists (λ m, all_issubclass types m.1 = true) (methods self).
Proof.
  rewrite Exists_exists. split.
  - intros (signature & f & Hin & Hpos).
    exists (signature, f). by rewrite all_issubclass_positionwise.
  - intros ([signature f] & Hin & Hm).
    exists signature, f. by rewrite <- all_issubclass_positionwise.
Qed.

(** [overriden] is set exactly when [override] is not zero and some
    registered signature is positionwise at or above the new one. *)
Lemma add_overriden_true self types override :
  (add_overriden self types override).1 = true
  ↔ override ≠ SILENT ∧ conflicts self types.
Proof.
  unfold add_overriden, SILENT. rewrite conflicts_Exists.
  case_bool_decide as Hov.
  - rewrite add_loop_overriden. tauto.
  - simpl. split; [done|]. by intros [? _].
Qed.

(** *** The branches of [add] *)

Lemma add_not_overriden self f types override :
  (add_overriden self types override).1 = false →
  add self f types override
  = Run (Ok ()) (mk (get self) (methods self ++ [(types, f)]) (cache self)) [].
Proof. unfold add. by intros ->. Qed.

Lemma add_SILENT self f types :
  add self f types SILENT
  = Run (Ok ()) (mk (get self) (methods self ++ [(types, f)]) (cache self)) [].
Proof. reflexivity. Qed.

Lemma add_FAIL_overriden self f types :
  conflicts self types →
  add self f types FAIL = Run (Raise (TypeError None)) self [].
Proof.
  intros Hc. unfold add.
  by rewrite (proj2 (add_overriden_true self types FAIL)).
Qed.

Lemma add_WARN_overriden self f types :
  conflicts self types →
  ∃ signature,
    last (methods self).*1 = Some signature
    ∧ add self f types WARN
      = Run (Ok ())
          (mk (get self) (methods self ++ [(types, f)]) (cache self))
          [TypeWarning ("Definition (" +:+ _fmt_t types +:+
                        ") overrides prior definition (" +:+
                        _fmt_t signature +:+ ").")].
Proof.
  intros Hc. unfold add.
  rewrite (proj2 (add_overriden_true self types WARN)) by done.
  simpl. unfold add_overriden. simpl. rewrite add_loop_signature.
  apply conflicts_Exists in Hc.
  destruct (methods self) as [|m ms _] using rev_ind.
  - by apply Exists_nil in Hc.
  - rewrite fmap_app. simpl. rewrite last_snoc. by eexists.
Qed.

Lemma add_invalid_overriden self f types override :
  override ≠ SILENT → override ≠ WARN → override ≠ FAIL →
  conflicts self types →
  add self f types override
  = Run (Raise (ValueError (Some "Invalid value for override."%string)))
        self [].
Proof.
  intros H0' H1' H2' Hc. unfold add.
  rewrite (proj2 (add_overriden_true self types override)) by done.
  simpl.
  destruct (Z.eqb_spec override FAIL); [done|].
  by destruct (Z.eqb_spec override WARN).
Qed.

(** [add] never assigns to [self.cache] or [self.get]. *)
Lemma add_cache self f types override :
  cache (final (add self f types override)) = cache self.
Proof.
  unfold add. repeat case_match; reflexivity.
Qed.

Lemma add_get self f types override :
  get (final (add self f types override)) = get self.
Proof.
  unfold add. repeat case_match; reflexivity.
Qed.

(** [add] either leaves the registry as it is or appends the new pair. *)
Lemma add_methods self f types override :
  methods (final (add self f types override))
  = match outcome (add self f types override) with
    | Ok _ => methods self ++ [(types, f)]
    | Raise _ => methods self
    end.
Proof.
  unfold add.
  destruct (_ && (override =? FAIL)); [done|].
  destruct (_ && (override =? WARN)).
  - by destruct (add_overriden self types override).2.
  - by destruct (add_overriden self types override).1.
Qed.

(** *** The branches of [__call__] and [super] *)

Lemma call_hit self args kwargs f :
  cache self !! call_types self args kwargs = Some f →
  __call__ self args kwargs = Run (Ok (Invoke f args kwargs)) self [].
Proof. unfold __call__, call_types. by intros ->. Qed.

Lemma call_miss_Some self args kwargs f :
  cache self !! call_types self args kwargs = None →
  dispatch_loop (call_types self args kwargs) (reverse (methods self))
  = Some f →
  __call__ self args kwargs
  = Run (Ok (Invoke f args kwargs))
        (mk (get self) (methods self)
            (<[call_types self args kwargs := f]> (cache self))) [].
Proof. unfold __call__, call_types. by intros -> ->. Qed.

Lemma call_miss_None self args kwargs :
  cache self !! call_types self args kwargs = None →
  dispatch_loop (call_types self args kwargs) (reverse (methods self))
  = None →
  ∃ msg, __call__ self args kwargs = Run (Raise (TypeError msg)) self [].
Proof.
  unfold __call__, call_types. intros -> ->.
  destruct (type_ <$> get self args kwargs) as [|? [|? ?]]; simpl;
    by eexists.
Qed.

Lemma super_hit self args kwargs types f :
  super_types (get self args kwargs) = Ok types →
  cache self !! types = Some f →
  super self args kwargs
  = Run (Ok (Invoke f (unwrap <$> args) (unwrap <$> kwargs))) self [].
Proof. unfold super. by intros -> ->. Qed.

Lemma super_miss_Some self args kwargs types f :
  super_types (get self args kwargs) = Ok types →
  cache self !! types = None →
  dispatch_loop types (reverse (methods self)) = Some f →
  super self args kwargs
  = Run (Ok (Invoke f (unwrap <$> args) (unwrap <$> kwargs)))
        (mk (get self) (methods self) (<[types := f]> (cache self))) [].
Proof. unfold super. by intros -> -> ->. Qed.

Lemma super_miss_None self args kwargs types :
  super_types (get self args kwargs) = Ok types →
  cache self !! types = None →
  dispatch_loop types (reverse (methods self)) = None →
  super self args kwargs = Run (Raise (TypeError None)) self [].
Proof. unfold super. by intros -> -> ->. Qed.

Lemma super_IndexError self args kwargs e :
  super_types (get self args kwargs) = Raise e →
  super self args kwargs = Run (Raise e) self [].
Proof. unfold super. by intros ->. Qed.

(** Neither entry point touches the registry or the extractor. *)
Lemma call_methods self args kwargs :
  methods (final (__call__ self args kwargs)) = methods self.
Proof. unfold __call__. repeat case_match; reflexivity. Qed.

Lemma call_get self args kwargs :
  get (final (__call__ self args kwargs)) = get self.
Proof. unfold __call__. repeat case_match; reflexivity. Qed.

Lemma super_methods self args kwargs :
  methods (final (super self args kwargs)) = methods self.
Proof. unfold super. repeat case_match; reflexivity. Qed.

Lemma super_get self args kwargs :
  get (final (super self args kwargs)) = get self.
Proof. unfold super. repeat case_match; reflexivity. Qed.

(** *** The discriminants of [super] *)

Lemma super_types_Forall2 objs types :
  super_types objs = Ok types
  ↔ Forall2 (λ x c, super_type_of x = Ok c) objs types.
Proof.
  revert types. induction objs as [|x objs IH]; intros types; simpl.
  - split.
    + intros [= <-]. constructor.
    + by intros ->%Forall2_nil_inv_l.
  - destruct (super_type_of x) as [c|e] eqn:Hx.
    + destruct (super_types objs) as [cs|e] eqn:Hobjs.
      * split.
        -- intros [= <-]. constructor; [done|]. by apply IH.
        -- intros (c' & cs' & Hc & Hcs & ->)%Forall2_cons_inv_l.
           apply IH in Hcs. congruence.
      * split; [done|].
        intros (c' & cs' & Hc & Hcs & ->)%Forall2_cons_inv_l.
        apply IH in Hcs. congruence.
    + split; [done|].
      intros (c' & cs' & Hc & Hcs & ->)%Forall2_cons_inv_l. congruence.
Qed.

(** The comprehension raises only on a marker whose class has a
    one-element [__mro__]. *)
Lemma super_types_total objs :
  (∀ thisclass wrapped,
      Super thisclass wrapped ∈ objs → is_Some (__mro__ thisclass !! 1%nat)) →
  ∃ types, super_types objs = Ok types.
Proof.
  induction objs as [|x objs IH]; intros Hmro; simpl; [by eexists|].
  destruct IH as [cs ->].
  { intros c w Hin. apply (Hmro c w). by right. }
  destruct x as [ty n|c w]; simpl; [by eexists|].
  destruct (Hmro c w) as [c' ->]; [by left|]. by eexists.
Qed.

(** *** Coherence of the cache *)

Lemma coherent_init get_ : coherent (impl:=impl) (__init__ get_).
Proof. intros types f. unfold __init__. simpl. by rewrite lookup_empty. Qed.

Lemma coherent_clear_cache self : coherent (clear_cache self).
Proof. intros types f. simpl. by rewrite lookup_empty. Qed.

Lemma coherent_insert self types f :
  coherent self →
  dispatch_loop types (reverse (methods self)) = Some f →
  coherent (mk (get self) (methods self) (<[types := f]> (cache self))).
Proof.
  intros Hco Hf types' g. simpl. rewrite lookup_insert.
  case_decide as Heq.
  - intros [= <-]. by subst.
  - apply Hco.
Qed.

Lemma coherent_call self args kwargs :
  coherent self → coherent (final (__call__ self args kwargs)).
Proof.
  intros Hco. unfold __call__.
  destruct (cache self !! _) eqn:Hc; simpl; [done|].
  destruct (dispatch_loop _ _) eqn:Hd; simpl.
  - by apply coherent_insert.
  - by destruct (percent_r _).
Qed.

Lemma coherent_super self args kwargs :
  coherent self → coherent (final (super self args kwargs)).
Proof.
  intros Hco. unfold super.
  destruct (super_types _) as [types|e]; simpl; [|done].
  destruct (cache self !! _) eqn:Hc; simpl; [done|].
  destruct (dispatch_loop _ _) eqn:Hd; simpl; [|done].
  by apply coherent_insert.
Qed.

Lemma decorate_cache self types opts f :
  cache (final (decorate self types opts f)) = ∅.
Proof.
  unfold decorate, call_dec. simpl.
  destruct (outcome (add _ _ _ _)) eqn:Ho; simpl; by rewrite add_cache.
Qed.

Lemma coherent_decorate self types opts f :
  coherent (final (decorate self types opts f)).
Proof. intros T g. by rewrite decorate_cache, lookup_empty. Qed.

(** A receiver that was only ever registered with through the decorator
    form has a coherent cache. *)
Lemma decorated_coherent self : decorated self → coherent self.
Proof.
  induction 1;
    auto using coherent_init, coherent_decorate, coherent_call,
               coherent_super.
Qed.

(** With a coherent cache, the result depends on the registry only. *)
Lemma coherent_call_outcome self args kwargs :
  coherent self →
  outcome (__call__ self args kwargs)
  = match dispatch_loop (call_types self args kwargs)
            (reverse (methods self)) with
    | Some f => Ok (Invoke f args kwargs)
    | None =>
        match percent_r (call_types self args kwargs) with
        | Ok s => Raise (TypeError (Some s))
        | Raise e => Raise e
        end
    end.
Proof.
  intros Hco. unfold __call__, call_types.
  destruct (cache self !! _) as [f|] eqn:Hc; simpl.
  - by rewrite (Hco _ _ Hc).
  - destruct (dispatch_loop _ _); [done|]. by destruct (percent_r _).
Qed.

Lemma coherent_super_outcome self args kwargs :
  coherent self →
  outcome (super self args kwargs)
  = match super_types (get self args kwargs) with
    | Raise e => Raise e
    | Ok types =>
        match dispatch_loop types (reverse (methods self)) with
        | Some f => Ok (Invoke f (unwrap <$> args) (unwrap <$> kwargs))
        | None => Raise (TypeError None)
        end
    end.
Proof.
  intros Hco. unfold super.
  destruct (super_types _) as [types|e]; [|done].
  destruct (cache self !! _) as [f|] eqn:Hc; simpl.
  - by rewrite (Hco _ _ Hc).
  - by destruct (dispatch_loop _ _).
Qed.

(** ** Resolution *)

(** C1.  On a cache miss, [__call__] runs over the registrations from the
    most recently registered to the oldest and calls the function of the
    first one whose signature is, at every position, at or above the type
    of the discriminant; it stores that function in the cache under the
    tuple of types.  Conversely a call that returns went to such a
    registration.  When two registrations both pass, the one registered
    later is called, whatever the relation between the two signatures. *)
Theorem call_most_recent_match self args kwargs :
  cache self !! call_types self args kwargs = None →
  (∀ earlier signature f later,
      methods self = earlier ++ (signature, f) :: later →
      positionwise (call_types self args kwargs) signature →
      Forall (λ m, ¬ positionwise (call_types self args kwargs) m.1) later →
      __call__ self args kwargs
      = Run (Ok (Invoke f args kwargs))
            (mk (get self) (methods self)
                (<[call_types self args kwargs := f]> (cache self))) [])
  ∧ (∀ tc,
      outcome (__call__ self args kwargs) = Ok tc →
      ∃ earlier signature f later,
        methods self = earlier ++ (signature, f) :: later
        ∧ positionwise (call_types self args kwargs) signature
        ∧ Forall (λ m, ¬ positionwise (call_types self args kwargs) m.1)
                 later
        ∧ tc = Invoke f args kwargs)
  ∧ (∀ earlier s1 f1 between s2 f2 later,
      methods self = earlier ++ (s1, f1) :: between ++ (s2, f2) :: later →
      positionwise (call_types self args kwargs) s1 →
      positionwise (call_types self args kwargs) s2 →
      Forall (λ m, ¬ positionwise (call_types self args kwargs) m.1) later →
      outcome (__call__ self args kwargs) = Ok (Invoke f2 args kwargs)).
Proof.
  intros Hmiss.
  assert (Hfalse : ∀ later,
    Forall (λ m, ¬ positionwise (call_types self args kwargs) m.1) later
    ↔ Forall (λ m : list cls * impl,
                all_issubclass (call_types self args kwargs) m.1 = false)
             later).
  { intros later. apply Forall_proper; [|done]. intros m.
    rewrite <- all_issubclass_positionwise. by destruct (all_issubclass _ _). }
  assert (Hfirst : ∀ earlier signature f later,
    methods self = earlier ++ (signature, f) :: later →
    positionwise (call_types self args kwargs) signature →
    Forall (λ m, ¬ positionwise (call_types self args kwargs) m.1) later →
    __call__ self args kwargs
    = Run (Ok (Invoke f args kwargs))
          (mk (get self) (methods self)
              (<[call_types self args kwargs := f]> (cache self))) []).
  { intros earlier signature f later Heq Hsig Hlater.
    apply call_miss_Some; [done|].
    apply dispatch_loop_reverse_Some. exists earlier, signature, later.
    split_and!; [done| |].
    - by apply all_issubclass_positionwise.
    - by apply Hfalse. }
  split_and!.
  - exact Hfirst.
  - intros tc Htc.
    destruct (dispatch_loop (call_types self args kwargs)
                (reverse (methods self))) as [f|] eqn:Hd.
    + rewrite (call_miss_Some _ _ _ f) in Htc by done.
      injection Htc as <-.
      apply dispatch_loop_reverse_Some in Hd
        as (earlier & signature & later & Heq & Hsig & Hlater).
      exists earlier, signature, f, later. split_and!; [done| | |done].
      * by apply all_issubclass_positionwise.
      * by apply Hfalse.
    + destruct (call_miss_None self args kwargs) as [msg Hr]; [done..|].
      by rewrite Hr in Htc.
  - intros earlier s1 f1 between s2 f2 later Heq _ Hs2 Hlater.
    rewrite (Hfirst (earlier ++ (s1, f1) :: between) s2 f2 later); try done.
    by rewrite Heq, <- app_assoc.
Qed.

Lemma agree_positionwise types signature :
  agree_on_common_prefix types signature ↔ positionwise types signature.
Proof.
  split.
  - intros Hag i a b Ha Hb. apply (Hag i a b); [|done..].
    apply lookup_lt_Some in Ha, Hb. lia.
  - intros Hpos i a b _. apply Hpos.
Qed.

Lemma agree_all_issubclass types signature :
  agree_on_common_prefix types signature
  ↔ all_issubclass types signature = true.
Proof. by rewrite agree_positionwise, all_issubclass_positionwise. Qed.

Lemma not_agree_false types ms :
  Forall (λ m, ¬ agree_on_common_prefix types m.1) ms
  ↔ Forall (λ m : list cls * impl, all_issubclass types m.1 = false) ms.
Proof.
  apply Forall_proper; [|done]. intros m.
  rewrite agree_all_issubclass. by destruct (all_issubclass _ _).
Qed.

Lemma conflicts_agree self types :
  conflicts self types
  ↔ ∃ signature g,
      (signature, g) ∈ methods self ∧ agree_on_common_prefix types signature.
Proof.
  unfold conflicts. split; intros (signature & g & Hin & Hag);
    exists signature, g; (split; [done|]); by apply agree_positionwise.
Qed.

(** C10.  The test of a tuple of types against a signature looks at the
    positions below the length of the shorter of the two and at no other: it
    is the test of the two prefixes of that length, and the empty signature
    passes against every tuple.  The loop of [__call__] and [super] and the
    conflict check of [add] decide by it and by nothing else: on a cache
    miss the call goes to the last registered function whose signature
    agrees with the types on the common prefix, whatever the two lengths
    are, and raises [TypeError] exactly when no signature does; [add] sets
    [overriden], and refuses under [FAIL], exactly when [override] is not
    [SILENT] and the new signature agrees with a registered one on their
    common prefix.  No difference of lengths is an error by itself. *)
Theorem zip_compares_common_prefix types signature :
  (all_issubclass types signature = true
   ↔ agree_on_common_prefix types signature)
  ∧ all_issubclass types signature
    = all_issubclass
        (take (length types `min` length signature) types)
        (take (length types `min` length signature) signature)
  ∧ all_issubclass types [] = true
  ∧ (∀ self args kwargs,
       cache self !! call_types self args kwargs = None →
       (∀ earlier sig f later,
           methods self = earlier ++ (sig, f) :: later →
           agree_on_common_prefix (call_types self args kwargs) sig →
           Forall (λ m, ¬ agree_on_common_prefix
                           (call_types self args kwargs) m.1) later →
           __call__ self args kwargs
           = Run (Ok (Invoke f args kwargs))
                 (mk (get self) (methods self)
                     (<[call_types self args kwargs := f]> (cache self))) [])
       ∧ (Forall (λ m, ¬ agree_on_common_prefix
                         (call_types self args kwargs) m.1) (methods self)
          ↔ ∃ msg, __call__ self args kwargs
                   = Run (Raise (TypeError msg)) self []))
  ∧ (∀ self args kwargs called,
       super_types (get self args kwargs) = Ok called →
       cache self !! called = None →
       (∀ earlier sig f later,
           methods self = earlier ++ (sig, f) :: later →
           agree_on_common_prefix called sig →
           Forall (λ m, ¬ agree_on_common_prefix called m.1) later →
           super self args kwargs
           = Run (Ok (Invoke f (unwrap <$> args) (unwrap <$> kwargs)))
                 (mk (get self) (methods self) (<[called := f]> (cache self)))
                 [])
       ∧ (Forall (λ m, ¬ agree_on_common_prefix called m.1) (methods self)
          ↔ super self args kwargs = Run (Raise (TypeError None)) self []))
  ∧ (∀ self f new override,
       ((add_overriden self new override).1 = true
        ↔ override ≠ SILENT
          ∧ ∃ sig g, (sig, g) ∈ methods self ∧ agree_on_common_prefix new sig)
       ∧ (add self f new FAIL = Run (Raise (TypeError None)) self []
          ↔ ∃ sig g, (sig, g) ∈ methods self ∧ agree_on_common_prefix new sig)).
Proof.
  split_and!.
  - by rewrite agree_all_issubclass.
  - apply all_issubclass_take.
  - apply all_issubclass_nil_r.
  - intros self args kwargs Hmiss. split.
    + intros earlier sig f later Heq Hsig Hlater.
      apply call_miss_Some; [done|].
      apply dispatch_loop_reverse_Some. exists earlier, sig, later.
      split_and!; [done| |].
      * by apply agree_all_issubclass.
      * by apply not_agree_false.
    + rewrite not_agree_false, <- dispatch_loop_reverse_None. split.
      * intros Hd. by apply call_miss_None.
      * intros [msg Hraise].
        destruct (dispatch_loop (call_types self args kwargs)
                    (reverse (methods self))) as [f|] eqn:Hd; [|done].
        by rewrite (call_miss_Some _ _ _ f) in Hraise.
  - intros self args kwargs called Hty Hmiss. split.
    + intros earlier sig f later Heq Hsig Hlater.
      apply (super_miss_Some _ _ _ called); [done..|].
      apply dispatch_loop_reverse_Some. exists earlier, sig, later.
      split_and!; [done| |].
      * by apply agree_all_issubclass.
      * by apply not_agree_false.
    + rewrite not_agree_false, <- dispatch_loop_reverse_None. split.
      * intros Hd. by apply (super_miss_None _ _ _ called).
      * intros Hraise.
        destruct (dispatch_loop called (reverse (methods self)))
          as [f|] eqn:Hd; [|done].
        by rewrite (super_miss_Some _ _ _ called f) in Hraise.
  - intros self f new override. split.
    + by rewrite add_overriden_true, conflicts_agree.
    + rewrite <- conflicts_agree. split.
      * intros Hraise.
        destruct (add_overriden self new FAIL).1 eqn:Hov.
        -- by apply add_overriden_true in Hov as [_ ?].
        -- by rewrite add_not_overriden in Hraise.
      * apply add_FAIL_overriden.
Qed.

(** ** Registration *)

(** C4.  [add] sets [overriden] exactly when [override] is not [SILENT]
    and some registered signature is, at every position, at or above the
    new one.  When it is not set, the pair is appended, nothing is raised
    and nothing is warned; when it is set, that is not what happens.
    Under [SILENT] the pair is always appended in silence, so a signature
    registered twice is there twice. *)
Theorem add_conflict_detection self f types override :
  ((add_overriden self types override).1 = true
   ↔ override ≠ SILENT ∧ conflicts self types)
  ∧ ((add_overriden self types override).1 = false
     → add self f types override
       = Run (Ok ())
             (mk (get self) (methods self ++ [(types, f)]) (cache self)) [])
  ∧ ((add_overriden self types override).1 = true
     → outcome (add self f types override) ≠ Ok ()
       ∨ warnings (add self f types override) ≠ [])
  ∧ (∀ g,
       add self f types SILENT
       = Run (Ok ())
             (mk (get self) (methods self ++ [(types, f)]) (cache self)) []
       ∧ add (final (add self f types SILENT)) g types SILENT
         = Run (Ok ())
               (mk (get self) (methods self ++ [(types, f); (types, g)])
                   (cache self)) []).
Proof.
  split_and!.
  - apply add_overriden_true.
  - apply add_not_overriden.
  - intros Hov. unfold add. rewrite Hov. simpl.
    destruct (override =? FAIL); simpl; [by left|].
    destruct (override =? WARN); simpl; [|by left].
    destruct (add_overriden self types override).2; simpl;
      [by right | by left].
  - intros g. split; [reflexivity|].
    rewrite !add_SILENT. simpl. by rewrite <- app_assoc.
Qed.

(** C6.  Under [FAIL], when some registered signature is positionwise at
    or above the new one, [add] raises the bare [TypeError] and the
    receiver is as before: nothing is appended. *)
Theorem add_FAIL_refuses self f types :
  conflicts self types →
  add self f types FAIL = Run (Raise (TypeError None)) self [].
Proof. apply add_FAIL_overriden. Qed.

(** C8.  Under a value of [override] other than [SILENT], [WARN] and
    [FAIL], when a conflict is found, [add] raises [ValueError] and appends
    nothing; this is not the exception that [FAIL] raises. *)
Theorem add_invalid_override_refuses self f types override :
  override ≠ SILENT → override ≠ WARN → override ≠ FAIL →
  conflicts self types →
  add self f types override
  = Run (Raise (ValueError (Some "Invalid value for override."%string)))
        self []
  ∧ outcome (add self f types override) ≠ outcome (add self f types FAIL).
Proof.
  intros H0' H1' H2' Hc.
  rewrite add_invalid_overriden, add_FAIL_overriden by done. by split.
Qed.

(** ** The cache *)

(** C2.  [add] leaves the cache as it is, whatever it does otherwise;
    [add_dec] empties it, and it is still empty after the closure has run.
    So when a call has returned, the same call after any further [add]
    returns the same function on the same arguments, also when the newly
    added signature passes for the tuple, in which case a call on the
    emptied cache goes to the new function. *)
Theorem add_keeps_cache_add_dec_clears :
  (∀ self f types override,
      cache (final (add self f types override)) = cache self)
  ∧ (∀ self types opts,
      cache (final (add_dec self types opts)) = ∅
      ∧ ∀ f, cache (final (decorate self types opts f)) = ∅)
  ∧ (∀ self args kwargs tc g types override,
      outcome (__call__ self args kwargs) = Ok tc →
      outcome (__call__
                 (final (add (final (__call__ self args kwargs))
                             g types override))
                 args kwargs) = Ok tc)
  ∧ (∀ self args kwargs g types,
      positionwise (call_types self args kwargs) types →
      outcome (__call__
                 (clear_cache
                    (final (add (final (__call__ self args kwargs))
                                g types SILENT)))
                 args kwargs) = Ok (Invoke g args kwargs)).
Proof.
  split_and!.
  - apply add_cache.
  - intros self types opts. split; [done|]. intros f. apply decorate_cache.
  - intros self args kwargs tc g types override Htc.
    set (self' := final (__call__ self args kwargs)).
    assert (Hget : get self' = get self) by apply call_get.
    assert (∃ f, tc = Invoke f args kwargs
                 ∧ cache self' !! call_types self args kwargs = Some f)
      as (f & -> & Hf).
    { subst self'. unfold __call__, call_types in *.
      destruct (cache self !! _) as [f|] eqn:Hc; simpl in *.
      - injection Htc as <-. by exists f.
      - destruct (dispatch_loop _ _) as [f|]; simpl in *.
        + injection Htc as <-. exists f. split; [done|].
          by rewrite lookup_insert_eq.
        + by destruct (percent_r _). }
    rewrite (call_hit _ _ _ f); [done|].
    unfold call_types. by rewrite add_cache, add_get, Hget.
  - intros self args kwargs g types Hpos.
    set (self' := final (__call__ self args kwargs)).
    assert (Hget : get self' = get self) by apply call_get.
    rewrite add_SILENT. simpl.
    rewrite (call_miss_Some _ _ _ g); [done|done|].
    unfold call_types in *. simpl. rewrite Hget, dispatch_loop_reverse_snoc.
    by rewrite (proj2 (all_issubclass_positionwise _ _) Hpos).
Qed.

(** C5, as amended.  When every cache entry is what the registry gives
    for its key now, [__call__] and [super] return the same whatever the
    cache holds: with the cache emptied, or with any other coherent cache
    over the same registry.  The cache stays coherent under both. *)
Theorem coherent_cache_is_transparent self args kwargs :
  coherent self →
  outcome (__call__ self args kwargs)
  = outcome (__call__ (clear_cache self) args kwargs)
  ∧ outcome (super self args kwargs)
    = outcome (super (clear_cache self) args kwargs)
  ∧ (∀ cache',
       coherent (mk (get self) (methods self) cache') →
       outcome (__call__ self args kwargs)
       = outcome (__call__ (mk (get self) (methods self) cache') args kwargs)
       ∧ outcome (super self args kwargs)
         = outcome (super (mk (get self) (methods self) cache') args kwargs))
  ∧ coherent (final (__call__ self args kwargs))
  ∧ coherent (final (super self args kwargs)).
Proof.
  intros Hco.
  assert (Hany : ∀ cache',
    coherent (mk (get self) (methods self) cache') →
    outcome (__call__ self args kwargs)
    = outcome (__call__ (mk (get self) (methods self) cache') args kwargs)
    ∧ outcome (super self args kwargs)
      = outcome (super (mk (get self) (methods self) cache') args kwargs)).
  { intros cache' Hco'. split.
    - by rewrite !coherent_call_outcome.
    - by rewrite !coherent_super_outcome. }
  destruct (Hany ∅ (coherent_clear_cache self)) as [Hcall Hsuper].
  split_and!; [done|done|done| |].
  - by apply coherent_call.
  - by apply coherent_super.
Qed.

(** ** Delegation *)

(** C3.  In [super], the type that stands for a [super] object among the
    discriminants is the second entry of the [__mro__] of its
    [__thisclass__]; any other object stands with its own type.  The
    function found for these types, in the cache or by the loop, is called
    on the arguments with every [super] object replaced by its [__self__],
    positional and keyword alike, the other arguments being passed as they
    are.  With [(Animal,)] registered and then [(Dog,)], where the
    [__mro__] of [Dog] continues with [Animal], [__call__] on a [Dog] goes
    to the function of [(Dog,)], and [super] on [super(Dog, d)] goes to the
    function of [(Animal,)], which receives [d]. *)
Theorem super_dispatches_on_next_class :
  (∀ self args kwargs,
      (∀ thisclass wrapped,
          Super thisclass wrapped ∈ get self args kwargs →
          is_Some (__mro__ thisclass !! 1%nat)) →
      ∃ types,
        length types = length (get self args kwargs)
        ∧ (∀ i thisclass wrapped,
              get self args kwargs !! i = Some (Super thisclass wrapped) →
              types !! i = __mro__ thisclass !! 1%nat)
        ∧ (∀ i ty n,
              get self args kwargs !! i = Some (Obj ty n) →
              types !! i = Some ty)
        ∧ (∀ f,
              cache self !! types = Some f
              ∨ (cache self !! types = None
                 ∧ dispatch_loop types (reverse (methods self)) = Some f) →
              outcome (super self args kwargs)
              = Ok (Invoke f (unwrap <$> args) (unwrap <$> kwargs)))
        ∧ (cache self !! types = None →
           dispatch_loop types (reverse (methods self)) = None →
           outcome (super self args kwargs) = Raise (TypeError None)))
  ∧ (∀ args kwargs,
      length (unwrap <$> args) = length args
      ∧ dom (unwrap <$> kwargs) = dom kwargs
      ∧ (∀ i thisclass wrapped,
            args !! i = Some (Super thisclass wrapped) →
            (unwrap <$> args) !! i = Some wrapped)
      ∧ (∀ i ty n,
            args !! i = Some (Obj ty n) →
            (unwrap <$> args) !! i = Some (Obj ty n))
      ∧ (∀ (k : string) thisclass wrapped,
            kwargs !! k = Some (Super thisclass wrapped) →
            (unwrap <$> kwargs) !! k = Some wrapped)
      ∧ (∀ (k : string) ty n,
            kwargs !! k = Some (Obj ty n) →
            (unwrap <$> kwargs) !! k = Some (Obj ty n)))
  ∧ (∀ (Animal Dog : cls) (on_animal on_dog : impl) (n : nat),
      issubclass Dog Dog = true →
      issubclass Animal Animal = true →
      issubclass Animal Dog = false →
      __mro__ Dog !! 1%nat = Some Animal →
      let m0 := __init__ (λ args _, args) in
      let m1 := final (add m0 on_animal [Animal] SILENT) in
      let m2 := final (add m1 on_dog [Dog] SILENT) in
      let d := Obj Dog n in
      outcome (__call__ m2 [d] ∅) = Ok (Invoke on_dog [d] ∅)
      ∧ outcome (super (final (__call__ m2 [d] ∅)) [Super Dog d] ∅)
        = Ok (Invoke on_animal [d] ∅)).
Proof.
  split_and!.
  - intros self args kwargs Hmro.
    destruct (super_types_total _ Hmro) as [types Hty].
    exists types. pose proof Hty as HF%super_types_Forall2.
    split_and!.
    + symmetry. by eapply Forall2_length.
    + intros i c w Hi.
      destruct (Forall2_lookup_l _ _ _ _ _ HF Hi) as (c' & -> & Hc').
      simpl in Hc'. destruct (__mro__ c !! 1%nat); by simplify_eq.
    + intros i ty n Hi.
      destruct (Forall2_lookup_l _ _ _ _ _ HF Hi) as (c' & -> & Hc').
      simpl in Hc'. by simplify_eq.
    + intros f [Hhit|[Hmiss Hd]].
      * by rewrite (super_hit _ _ _ types f).
      * by rewrite (super_miss_Some _ _ _ types f).
    + intros Hmiss Hd. by rewrite (super_miss_None _ _ _ types).
  - intros args kwargs. split_and!.
    + apply length_fmap.
    + apply dom_fmap_L.
    + intros i c w Hi. by rewrite list_lookup_fmap, Hi.
    + intros i ty n Hi. by rewrite list_lookup_fmap, Hi.
    + intros k c w Hk. by rewrite lookup_fmap, Hk.
    + intros k ty n Hk. by rewrite lookup_fmap, Hk.
  - intros Animal Dog on_animal on_dog n HDD HAA HAD Hmro m0 m1 m2 d.
    assert (Hne : [Dog] ≠ [Animal]).
    { intros [= ->]. congruence. }
    assert (Hcall : __call__ m2 [d] ∅
                    = Run (Ok (Invoke on_dog [d] ∅))
                          (mk (get m2) (methods m2) (<[[Dog] := on_dog]> ∅))
                          []).
    { unfold __call__. simpl. rewrite lookup_empty.
      unfold reverse. simpl. rewrite !all_issubclass_cons, HDD. done. }
    rewrite Hcall. split; [done|].
    unfold super. simpl. rewrite Hmro. simpl.
    rewrite lookup_insert_ne, lookup_empty by done.
    unfold reverse. simpl. rewrite !all_issubclass_cons, HAD, HAA. simpl.
    by rewrite fmap_empty.
Qed.

(** ** No match *)

Lemma dispatch_loop_elem_of types ms f :
  dispatch_loop types ms = Some f →
  ∃ signature, (signature, f) ∈ ms ∧ all_issubclass types signature = true.
Proof.
  intros (before & signature & after & -> & Hsig & _)%dispatch_loop_Some.
  exists signature. split; [|done]. apply elem_of_app. right. by left.
Qed.

Lemma sound_insert self types f :
  sound self →
  dispatch_loop types (reverse (methods self)) = Some f →
  sound (mk (get self) (methods self) (<[types := f]> (cache self))).
Proof.
  intros Hs Hd types' g. simpl. rewrite lookup_insert.
  case_decide as Heq.
  - intros [= <-]. subst types'.
    apply dispatch_loop_elem_of in Hd as (signature & Hin & Hsig).
    exists signature. by rewrite elem_of_reverse in Hin.
  - apply Hs.
Qed.

(** The cache of a receiver that a program can build is sound, whichever
    way it was registered with. *)
Lemma reachable_sound self : reachable self → sound self.
Proof.
  induction 1 as [get_|self f types override _ IH|self types opts _ IH
                  |self args kwargs _ IH|self args kwargs _ IH].
  - intros types f. unfold __init__. simpl. by rewrite lookup_empty.
  - intros T g. rewrite add_cache, add_methods. intros Hg.
    destruct (IH T g Hg) as (signature & Hin & Hsig).
    exists signature. split; [|done].
    destruct (outcome _); [|done]. apply elem_of_app. by left.
  - intros T g. simpl. by rewrite lookup_empty.
  - unfold __call__.
    destruct (cache self !! _) eqn:Hc; simpl; [done|].
    destruct (dispatch_loop _ _) eqn:Hd; simpl.
    + by apply sound_insert.
    + by destruct (percent_r _).
  - unfold super.
    destruct (super_types _) as [types|e]; simpl; [|done].
    destruct (cache self !! _) eqn:Hc; simpl; [done|].
    destruct (dispatch_loop _ _) eqn:Hd; simpl; [|done].
    by apply sound_insert.
Qed.

Lemma sound_no_match_miss self types :
  sound self →
  Forall (λ m, ¬ positionwise types m.1) (methods self) →
  cache self !! types = None
  ∧ dispatch_loop types (reverse (methods self)) = None.
Proof.
  intros Hs Hno.
  assert (Hno' : Forall (λ m : list cls * impl,
                           all_issubclass types m.1 = false) (methods self)).
  { eapply Forall_impl; [exact Hno|]. intros m Hm. simpl in Hm.
    rewrite <- all_issubclass_positionwise in Hm.
    by destruct (all_issubclass _ _). }
  split; [|by apply dispatch_loop_reverse_None].
  destruct (cache self !! types) as [f|] eqn:Hc; [|done].
  destruct (Hs _ _ Hc) as (signature & Hin & Hsig).
  rewrite Forall_forall in Hno'. apply Hno' in Hin. simpl in Hin. congruence.
Qed.

(** When no registered signature passes, [__call__] raises a [TypeError]
    and returns nothing; its message is the [repr] of the type when the
    tuple has one entry, and the complaint of the operator [%] when it has
    none or several. *)
Lemma call_no_match self args kwargs :
  reachable self →
  Forall (λ m, ¬ positionwise (call_types self args kwargs) m.1)
         (methods self) →
  __call__ self args kwargs
  = Run (Raise (match percent_r (call_types self args kwargs) with
                | Ok s => TypeError (Some s)
                | Raise e => e
                end)) self []
  ∧ ∃ msg, outcome (__call__ self args kwargs) = Raise (TypeError msg).
Proof.
  intros Hs%reachable_sound Hno.
  destruct (sound_no_match_miss _ _ Hs Hno) as [Hmiss Hd].
  unfold __call__. fold (call_types self args kwargs). rewrite Hmiss, Hd.
  destruct (call_types self args kwargs) as [|? [|? ?]]; simpl;
    (split; [done|by eexists]).
Qed.

(** When no registered signature passes, [super] raises the bare
    [TypeError]. *)
Lemma super_no_match self args kwargs types :
  reachable self →
  super_types (get self args kwargs) = Ok types →
  Forall (λ m, ¬ positionwise types m.1) (methods self) →
  super self args kwargs = Run (Raise (TypeError None)) self [].
Proof.
  intros Hs%reachable_sound Hty Hno.
  destruct (sound_no_match_miss _ _ Hs Hno) as [Hmiss Hd].
  by apply (super_miss_None _ _ _ types).
Qed.

End facts.

(** ** The properties on the small hierarchy *)

Import Zoo.

Lemma positionwise_dec_true (types signature : list pycls) :
  all_issubclass types signature = true → positionwise types signature.
Proof. apply all_issubclass_positionwise. Qed.

Lemma positionwise_dec_false (types signature : list pycls) :
  all_issubclass types signature = false → ¬ positionwise types signature.
Proof. rewrite <- all_issubclass_positionwise. congruence. Qed.

(** [int] goes to the function of [(Number,)], registered after the
    narrower [(int,)]. *)
Lemma call_most_recent_match_witness :
  cache number_after_int !! call_types number_after_int [seven] ∅ = None
  ∧ outcome (__call__ number_after_int [seven] ∅)
    = Ok (Invoke "on_number" [seven] ∅).
Proof.
  split; [reflexivity|].
  apply (proj2 (proj2
           (call_most_recent_match number_after_int [seven] ∅ eq_refl))
           [] [int] "on_int" [] [Number] "on_number" []).
  - reflexivity.
  - apply positionwise_dec_true. reflexivity.
  - apply positionwise_dec_true. reflexivity.
  - constructor.
Defined.

(** Two tuples of different lengths: only the first position counts, for
    the call and for the conflict check. *)
Lemma zip_compares_common_prefix_witness :
  agree_on_common_prefix [int; Dog] [Number]
  ∧ cache number_only !! call_types number_only [seven; rex] ∅ = None
  ∧ outcome (__call__ number_only [seven; rex] ∅)
    = Ok (Invoke "on_number" [seven; rex] ∅)
  ∧ add number_only "on_pair" [int; Dog] FAIL
    = Run (Raise (TypeError None)) number_only [].
Proof.
  pose proof (zip_compares_common_prefix (impl:=string) [int; Dog] [Number])
    as (Hiff & _ & _ & Hcall & _ & Hadd).
  assert (Hag : agree_on_common_prefix [int; Dog] [Number]).
  { apply Hiff. reflexivity. }
  split_and!.
  - exact Hag.
  - reflexivity.
  - destruct (Hcall number_only [seven; rex] ∅ eq_refl) as [Hfound _].
    rewrite (Hfound [] [Number] "on_number" [] eq_refl Hag (Forall_nil_2 _)).
    reflexivity.
  - apply (proj2 (Hadd number_only "on_pair" [int; Dog] FAIL)).
    exists [Number], "on_number". split; [|exact Hag].
    apply list_elem_of_singleton. reflexivity.
Defined.

(** Twice the same signature under [SILENT]. *)
Lemma add_conflict_detection_witness :
  methods (final (add (final (add (__init__ positional) "first" [int] SILENT))
                      "second" [int] SILENT))
  = [([int], "first"); ([int], "second")]
  ∧ warnings (add (final (add (__init__ positional) "first" [int] SILENT))
                  "second" [int] SILENT) = [].
Proof.
  pose proof (add_conflict_detection (__init__ positional) "first" [int] SILENT)
    as (_ & _ & _ & Htwice).
  destruct (Htwice "second") as [_ ->]. split; reflexivity.
Defined.

(** [(int,)] after [(int,)] under [FAIL]. *)
Lemma add_FAIL_refuses_witness :
  conflicts int_once [int]
  ∧ add int_once "second" [int] FAIL = Run (Raise (TypeError None)) int_once []
  ∧ methods (final (add int_once "second" [int] FAIL)) = [([int], "first")].
Proof.
  assert (Hc : conflicts int_once [int]).
  { exists [int], "first". split.
    - apply list_elem_of_singleton. reflexivity.
    - apply positionwise_dec_true. reflexivity. }
  split_and!.
  - exact Hc.
  - exact (add_FAIL_refuses int_once "second" [int] Hc).
  - reflexivity.
Defined.

(** [(int,)] after [(int,)] under [override=3]. *)
Lemma add_invalid_override_refuses_witness :
  3 ≠ SILENT ∧ 3 ≠ WARN ∧ 3 ≠ FAIL
  ∧ conflicts int_once [int]
  ∧ add int_once "second" [int] 3
    = Run (Raise (ValueError (Some "Invalid value for override."%string)))
          int_once [].
Proof.
  assert (Hc : conflicts int_once [int]).
  { exists [int], "first". split.
    - apply list_elem_of_singleton. reflexivity.
    - apply positionwise_dec_true. reflexivity. }
  assert (H0 : 3 ≠ SILENT) by (unfold SILENT; lia).
  assert (H1 : 3 ≠ WARN) by (unfold WARN; lia).
  assert (H2 : 3 ≠ FAIL) by (unfold FAIL; lia).
  split_and!; try assumption.
  exact (proj1 (add_invalid_override_refuses int_once "second" [int] 3
                  H0 H1 H2 Hc)).
Defined.

(** The call on an [int] after [(int,)] was added with the plain [add]
    still goes to the function of [(Number,)]. *)
Lemma add_keeps_cache_add_dec_clears_witness :
  outcome (__call__ number_only [seven] ∅)
  = Ok (Invoke "on_number" [seven] ∅)
  ∧ outcome (__call__ int_added_late [seven] ∅)
    = Ok (Invoke "on_number" [seven] ∅)
  ∧ outcome (__call__ (clear_cache int_added_late) [seven] ∅)
    = Ok (Invoke "on_int" [seven] ∅).
Proof.
  pose proof (add_keeps_cache_add_dec_clears (cls:=pycls) (impl:=string))
    as (_ & _ & Hstale & Hfresh).
  split_and!.
  - reflexivity.
  - apply (Hstale number_only [seven] ∅ _ "on_int" [int] SILENT). reflexivity.
  - apply (Hfresh number_only [seven] ∅ "on_int" [int]).
    apply positionwise_dec_true. reflexivity.
Defined.

(** C5, as stated, fails: after a plain [add] that shadows a cached tuple,
    the call on the cache as it is and the call on the emptied cache go to
    different functions. *)
Lemma cache_transparency_counterexample :
  ¬ (∀ (self : engine) args kwargs,
        reachable self →
        outcome (__call__ self args kwargs)
        = outcome (__call__ (clear_cache self) args kwargs)).
Proof.
  intros Hall.
  assert (Hr : reachable int_added_late).
  { unfold int_added_late, number_only. repeat constructor. }
  specialize (Hall int_added_late [seven] ∅ Hr).
  vm_compute in Hall. discriminate Hall.
Qed.

(** With the decorator form the cache is coherent, and emptying it changes
    nothing. *)
Lemma coherent_cache_is_transparent_witness :
  coherent int_decorated_late
  ∧ outcome (__call__ int_decorated_late [seven] ∅)
    = outcome (__call__ (clear_cache int_decorated_late) [seven] ∅).
Proof.
  assert (Hco : coherent int_decorated_late).
  { apply decorated_coherent. unfold int_decorated_late. repeat constructor. }
  split; [exact Hco|].
  exact (proj1 (coherent_cache_is_transparent int_decorated_late [seven] ∅ Hco)).
Defined.

(** [Animal] and [Dog]. *)
Lemma super_dispatches_on_next_class_witness :
  issubclass Dog Dog = true
  ∧ issubclass Animal Animal = true
  ∧ issubclass Animal Dog = false
  ∧ __mro__ Dog !! 1%nat = Some Animal
  ∧ outcome (__call__ animal_then_dog [rex] ∅) = Ok (Invoke "on_dog" [rex] ∅)
  ∧ outcome (super (final (__call__ animal_then_dog [rex] ∅))
                   [Super Dog rex] ∅)
    = Ok (Invoke "on_animal" [rex] ∅).
Proof.
  pose proof (super_dispatches_on_next_class (cls:=pycls) (impl:=string))
    as (_ & _ & Hzoo).
  split_and!.
  - reflexivity.
  - reflexivity.
  - reflexivity.
  - reflexivity.
  - apply (Hzoo Animal Dog "on_animal" "on_dog" 7%nat); reflexivity.
  - apply (Hzoo Animal Dog "on_animal" "on_dog" 7%nat); reflexivity.
Defined.

(** C7.  With [(Number,)] and then [(Animal,)] registered, adding [(int,)]
    under [WARN] succeeds and warns, and the warning names [(Animal,)], the
    signature registered last, which [(int,)] does not override; the one it
    does override is [(Number,)]. *)
Theorem warning_names_last_registered :
  add number_then_animal "on_int" [int] WARN
  = Run (Ok ())
        (mk positional
            [([Number], "on_number"); ([Animal], "on_animal");
             ([int], "on_int")] ∅)
        [TypeWarning "Definition (int) overrides prior definition (Animal)."]
  ∧ all_issubclass [int] [Animal] = false
  ∧ all_issubclass [int] [Number] = true.
Proof. split_and!; reflexivity. Qed.

(** C9.  With [(Animal,)] and [(Dog,)] registered, [super] on
    [super(Animal, d)] dispatches on [(object,)], which no signature is at or
    above, and raises the bare [TypeError], with no arguments; [__call__] on
    an [int] raises [TypeError] with the [repr] of the type, and on two
    [int]s a [TypeError] that says that the format failed. *)
Theorem no_match_error_payload :
  super_types (get animal_then_dog [Super Animal rex] ∅) = Ok [object]
  ∧ dispatch_loop [object] (reverse (methods animal_then_dog)) = None
  ∧ super animal_then_dog [Super Animal rex] ∅
    = Run (Raise (TypeError None)) animal_then_dog []
  ∧ __call__ animal_then_dog [seven] ∅
    = Run (Raise (TypeError (Some "<type 'int'>"%string))) animal_then_dog []
  ∧ __call__ animal_then_dog [seven; seven] ∅
    = Run (Raise (TypeError
             (Some "not all arguments converted during string formatting"%string)))
          animal_then_dog [].
Proof. split_and!; reflexivity. Qed.

(** ** Further properties of [MultiMethod] *)
Section more_facts.
Context {cls : Type} `{PyClasses cls} {impl : Type}.
Implicit Types (self : MultiMethod cls impl) (types signature : list cls).
Implicit Types (ms : list (list cls * impl)) (f g : impl).
Implicit Types (args : list (value cls)) (kwargs : gmap string (value cls)).
Implicit Types (opts : gmap string Z).

Lemma not_positionwise_false types ms :
  Forall (λ m, ¬ positionwise types m.1) ms
  ↔ Forall (λ m : list cls * impl, all_issubclass types m.1 = false) ms.
Proof.
  apply Forall_proper; [|done]. intros m.
  rewrite <- all_issubclass_positionwise. by destruct (all_issubclass _ _).
Qed.

(** X1.  In a receiver that a program can build, however it was registered
    with, a function found in the cache under a tuple of types is the
    function of a registration whose signature is positionwise at or above
    that tuple: a stale entry is still an applicable function. *)
Theorem cached_function_is_applicable self types f :
  reachable self →
  cache self !! types = Some f →
  ∃ signature, (signature, f) ∈ methods self ∧ positionwise types signature.
Proof.
  intros Hr Hc. destruct (reachable_sound self Hr types f Hc)
    as (signature & Hin & Hsig).
  exists signature. split; [done|]. by apply all_issubclass_positionwise.
Qed.

(** X2.  When no registered signature is at or above the types dispatched
    on, both entry points raise [TypeError] and leave the receiver as it
    was: nothing is cached and nothing is called.  [__call__] gives the
    [repr] of the type as message when the tuple has one entry; [super]
    gives no message. *)
Theorem unmatched_dispatch_raises self args kwargs :
  reachable self →
  (Forall (λ m, ¬ positionwise (call_types self args kwargs) m.1)
          (methods self) →
   (∃ msg, __call__ self args kwargs = Run (Raise (TypeError msg)) self [])
   ∧ (∀ ty, call_types self args kwargs = [ty] →
        __call__ self args kwargs
        = Run (Raise (TypeError (Some (repr ty)))) self []))
  ∧ (∀ types,
       super_types (get self args kwargs) = Ok types →
       Forall (λ m, ¬ positionwise types m.1) (methods self) →
       super self args kwargs = Run (Raise (TypeError None)) self []).
Proof.
  intros Hr. split.
  - intros Hno. destruct (call_no_match self args kwargs Hr Hno) as [Heq _].
    rewrite Heq. split.
    + destruct (call_types self args kwargs) as [|? [|? ?]]; simpl; by eexists.
    + by intros ty ->.
  - intros types Hty Hno. by apply (super_no_match _ _ _ types).
Qed.

Lemma super_types_Raise objs e :
  super_types objs = Raise e →
  e = IndexError (Some "tuple index out of range"%string)
  ∧ ∃ thisclass wrapped,
      Super thisclass wrapped ∈ objs ∧ __mro__ thisclass !! 1%nat = None.
Proof.
  induction objs as [|x objs IH]; simpl; [done|].
  destruct x as [ty n|c w]; simpl.
  - destruct (super_types objs) as [cs|e'] eqn:Hobjs; [done|].
    intros [= <-]. destruct (IH eq_refl) as (-> & c & w & Hin & Hmro).
    split; [done|]. exists c, w. split; [by right|done].
  - destruct (__mro__ c !! 1%nat) as [c'|] eqn:Hc.
    + destruct (super_types objs) as [cs|e'] eqn:Hobjs; [done|].
      intros [= <-]. destruct (IH eq_refl) as (-> & c0 & w0 & Hin & Hmro).
      split; [done|]. exists c0, w0. split; [by right|done].
    + intros [= <-]. split; [done|]. exists c, w. split; [by left|done].
Qed.

(** X3.  [super] raises [IndexError] exactly when one of the objects that
    the extractor returns is a [super] object whose [__thisclass__] has a
    one-element [__mro__] (as [object] has); the receiver is then left as it
    was, whatever is registered or cached. *)
Theorem super_raises_IndexError_iff self args kwargs :
  (∃ thisclass wrapped,
      Super thisclass wrapped ∈ get self args kwargs
      ∧ __mro__ thisclass !! 1%nat = None)
  ↔ super self args kwargs
    = Run (Raise (IndexError (Some "tuple index out of range"%string)))
          self [].
Proof.
  split.
  - intros (c & w & Hin & Hmro).
    destruct (super_types (get self args kwargs)) as [types|e] eqn:Hty.
    + apply super_types_Forall2 in Hty.
      apply list_elem_of_lookup in Hin as [i Hi].
      destruct (Forall2_lookup_l _ _ _ _ _ Hty Hi) as (c' & _ & Hc').
      simpl in Hc'. by rewrite Hmro in Hc'.
    + destruct (super_types_Raise _ _ Hty) as [-> _].
      by apply super_IndexError.
  - intros Hsuper.
    destruct (super_types (get self args kwargs)) as [types|e] eqn:Hty.
    + unfold super in Hsuper. rewrite Hty in Hsuper.
      destruct (cache self !! types); [done|].
      by destruct (dispatch_loop types _).
    + by destruct (super_types_Raise _ _ Hty) as [_ ?].
Qed.

(** X4.  A dispatch repeated on the receiver that the first one left gives
    the same result and changes nothing more, for both entry points: the
    second call of a function found by the loop is a cache hit. *)
Theorem dispatch_twice self args kwargs :
  __call__ (final (__call__ self args kwargs)) args kwargs
  = Run (outcome (__call__ self args kwargs))
        (final (__call__ self args kwargs)) []
  ∧ super (final (super self args kwargs)) args kwargs
    = Run (outcome (super self args kwargs))
          (final (super self args kwargs)) [].
Proof.
  split.
  - unfold __call__.
    destruct (cache self !! _) as [f|] eqn:Hc; simpl.
    + by rewrite Hc.
    + destruct (dispatch_loop _ _) as [f|] eqn:Hd; simpl.
      * by rewrite lookup_insert_eq.
      * destruct (percent_r _) eqn:Hp; simpl; by rewrite Hc, Hd, Hp.
  - unfold super.
    destruct (super_types (get self args kwargs)) as [types|e] eqn:Hty; simpl;
      [|by rewrite Hty].
    destruct (cache self !! types) as [f|] eqn:Hc; simpl.
    + by rewrite Hty, Hc.
    + destruct (dispatch_loop types (reverse (methods self))) as [f|] eqn:Hd;
        simpl.
      * by rewrite Hty, lookup_insert_eq.
      * by rewrite Hty, Hc, Hd.
Qed.


(** X6.  [super] on arguments whose substituted types are [types] and
    [__call__] on arguments whose objects have the types [types] find the
    same function and leave the same receiver: the two entry points share
    one cache and one loop, and differ in the arguments passed on and in the
    error raised. *)
Theorem super_agrees_with_call self args kwargs args' kwargs' :
  super_types (get self args kwargs) = Ok (call_types self args' kwargs') →
  final (super self args kwargs) = final (__call__ self args' kwargs')
  ∧ (∀ f,
      outcome (super self args kwargs)
      = Ok (Invoke f (unwrap <$> args) (unwrap <$> kwargs))
      ↔ outcome (__call__ self args' kwargs') = Ok (Invoke f args' kwargs'))
  ∧ ((∃ e, outcome (super self args kwargs) = Raise e)
     ↔ (∃ e, outcome (__call__ self args' kwargs') = Raise e)).
Proof.
  intros Hty. unfold super, __call__. rewrite Hty.
  fold (call_types self args' kwargs').
  destruct (cache self !! call_types self args' kwargs') as [f|]; simpl.
  { split_and!; [done| |].
    - intros f'. split; by intros [= <-].
    - split; by intros [? ?]. }
  destruct (dispatch_loop _ _) as [f|]; simpl.
  - split_and!; [done| |].
    + intros f'. split; by intros [= <-].
    + split; by intros [? ?].
  - split_and!.
    + by destruct (percent_r _).
    + intros f'. split; [done|]. by destruct (percent_r _).
    + split; intros _; [|by eexists]. destruct (percent_r _); by eexists.
Qed.

(** X7.  Over any history of a receiver, the extractor stays the one given at
    construction and the registrations made so far stay where they are, in
    their order: later ones are only appended.  [__call__], [super] and
    [add_dec] do not change the registry at all. *)
Theorem registry_only_grows self self' :
  evolves self self' →
  get self' = get self
  ∧ methods self `prefix_of` methods self'
  ∧ (∀ args kwargs,
        methods (final (__call__ self' args kwargs)) = methods self'
        ∧ methods (final (super self' args kwargs)) = methods self')
  ∧ (∀ types opts, methods (final (add_dec self' types opts)) = methods self').
Proof.
  intros Hev.
  assert (get self' = get self ∧ methods self `prefix_of` methods self')
    as [Hget Hpre].
  { induction Hev as [self|self self' f types override _ [IHg IHm]
                      |self self' types opts _ [IHg IHm]
                      |self self' args kwargs _ [IHg IHm]
                      |self self' args kwargs _ [IHg IHm]].
    - done.
    - rewrite add_get, add_methods. split; [done|].
      destruct (outcome _); [|done]. by apply prefix_app_r.
    - done.
    - by rewrite call_get, call_methods.
    - by rewrite super_get, super_methods. }
  split_and!; [done..| |done].
  intros args kwargs. by rewrite call_methods, super_methods.
Qed.

(** X8.  [add] ends in one of three ways: it returns, it raises the bare
    [TypeError], or it raises [ValueError]; the read of the loop variable in
    the warning never fails.  It raises [TypeError] only under [FAIL],
    [ValueError] only under a value other than [SILENT], [WARN] and [FAIL],
    and under [SILENT] and [WARN] it always registers.  It warns only under
    [WARN]. *)
Theorem add_outcomes self f types override :
  (outcome (add self f types override) = Ok ()
   ∨ outcome (add self f types override) = Raise (TypeError None)
   ∨ outcome (add self f types override)
     = Raise (ValueError (Some "Invalid value for override."%string)))
  ∧ (outcome (add self f types override) = Raise (TypeError None)
     → override = FAIL)
  ∧ (∀ msg, outcome (add self f types override) = Raise (ValueError msg)
     → override ≠ SILENT ∧ override ≠ WARN ∧ override ≠ FAIL)
  ∧ (override = SILENT ∨ override = WARN
     → outcome (add self f types override) = Ok ()
       ∧ methods (final (add self f types override))
         = methods self ++ [(types, f)])
  ∧ (warnings (add self f types override) ≠ [] → override = WARN).
Proof.
  destruct (add_overriden self types override).1 eqn:Hov.
  - apply add_overriden_true in Hov as [Hne Hc].
    destruct (decide (override = FAIL)) as [->|HF].
    { rewrite add_FAIL_overriden by done. simpl.
      split_and!; [by right; left|done|done| |done].
      by intros [?|?]. }
    destruct (decide (override = WARN)) as [->|HW].
    { destruct (add_WARN_overriden self f types Hc) as (signature & _ & ->).
      simpl. split_and!; [by left|done|done|done|done]. }
    rewrite add_invalid_overriden by done. simpl.
    split_and!; [by right; right|done|done| |done].
    by intros [?|?].
  - rewrite add_not_overriden by done. simpl.
    split_and!; [by left|done|done|done|done].
Qed.

(** X9.  Under [WARN], when a conflict is found, [add] registers and issues
    one warning, whose text names the new signature and the signature
    registered last before it, which need not be one that conflicts. *)
Theorem add_WARN_names_last_registered self f types :
  conflicts self types →
  ∃ earlier signature g,
    methods self = earlier ++ [(signature, g)]
    ∧ add self f types WARN
      = Run (Ok ())
          (mk (get self) (methods self ++ [(types, f)]) (cache self))
          [TypeWarning ("Definition (" +:+ _fmt_t types +:+
                        ") overrides prior definition (" +:+
                        _fmt_t signature +:+ ").")].
Proof.
  intros Hc. destruct (add_WARN_overriden self f types Hc)
    as (signature & Hlast & Hadd).
  destruct (methods self) as [|[signature' g] earlier _] eqn:Hms using rev_ind.
  - done.
  - rewrite fmap_app in Hlast. simpl in Hlast. rewrite last_snoc in Hlast.
    injection Hlast as ->. by exists earlier, signature, g.
Qed.

(** X10.  The decorator form without an [override] keyword returns the
    function it is given, appends it and leaves the cache empty, so that the
    next call whose types its signature is at or above goes to it, whatever
    was cached before. *)
Theorem decorate_takes_effect self types opts f :
  opts !! "override"%string = None →
  decorate self types opts f
  = Run (Ok f) (mk (get self) (methods self ++ [(types, f)]) ∅) []
  ∧ (∀ args kwargs,
       positionwise
         (call_types (final (decorate self types opts f)) args kwargs) types →
       outcome (__call__ (final (decorate self types opts f)) args kwargs)
       = Ok (Invoke f args kwargs)).
Proof.
  intros Hopt.
  assert (Heq : decorate self types opts f
                = Run (Ok f) (mk (get self) (methods self ++ [(types, f)]) ∅)
                      []).
  { unfold decorate, call_dec. simpl. by rewrite Hopt. }
  split; [done|]. rewrite Heq. simpl. intros args kwargs Hpos.
  rewrite (call_miss_Some _ _ _ f); [done|done|].
  simpl. rewrite dispatch_loop_reverse_snoc.
  by rewrite (proj2 (all_issubclass_positionwise _ _) Hpos).
Qed.

(** X11.  The decorator form under [override=FAIL], when a conflict is
    found, raises [TypeError] and registers nothing, and yet the cache has
    been emptied: [add_dec] empties it before the closure runs. *)
Theorem decorate_refused_still_clears self types opts f :
  opts !! "override"%string = Some FAIL →
  conflicts self types →
  decorate self types opts f
  = Run (Raise (TypeError None)) (clear_cache self) [].
Proof.
  intros Hopt Hc. unfold decorate, call_dec. simpl. rewrite Hopt. simpl.
  by rewrite add_FAIL_overriden.
Qed.

Lemma positionwise_trans types signature called :
  (∀ a b c, issubclass a b = true → issubclass b c = true
            → issubclass a c = true) →
  length types = length signature →
  positionwise types signature →
  positionwise called types → positionwise called signature.
Proof.
  intros Htrans Hlen Hnew Hcalled i a c Ha Hc.
  destruct (lookup_lt_is_Some_2 types i) as [b Hb].
  { rewrite Hlen. by eapply lookup_lt_Some. }
  eapply Htrans; [by eapply Hcalled|by eapply Hnew].
Qed.

(** X12.  When [issubclass] is transitive and the new signature is
    positionwise at or below a registered one of the same length, which is
    the conflict that [add] looks for, every call that the new signature
    takes had a match before the registration and goes to the new function
    after it (the cache being empty): the conflict is the shadowing of calls
    that were served. *)
Theorem conflict_is_shadowing self f types signature g args kwargs :
  (∀ a b c, issubclass a b = true → issubclass b c = true
            → issubclass a c = true) →
  (signature, g) ∈ methods self →
  length types = length signature →
  positionwise types signature →
  positionwise (call_types self args kwargs) types →
  (∃ h, outcome (__call__ (clear_cache self) args kwargs)
        = Ok (Invoke h args kwargs))
  ∧ outcome (__call__ (clear_cache (final (add self f types SILENT)))
                      args kwargs)
    = Ok (Invoke f args kwargs).
Proof.
  intros Htrans Hin Hlen Hnew Hcalled. split.
  - pose proof (positionwise_trans _ _ _ Htrans Hlen Hnew Hcalled) as Hold.
    apply all_issubclass_positionwise in Hold.
    destruct (dispatch_loop (call_types self args kwargs)
                (reverse (methods self))) as [h|] eqn:Hd.
    + exists h. by rewrite (call_miss_Some _ _ _ h).
    + apply dispatch_loop_reverse_None in Hd.
      rewrite Forall_forall in Hd. apply Hd in Hin. simpl in Hin. congruence.
  - rewrite add_SILENT. simpl.
    rewrite (call_miss_Some _ _ _ f); [done|done|].
    unfold call_types in *. simpl. rewrite dispatch_loop_reverse_snoc.
    by rewrite (proj2 (all_issubclass_positionwise _ _) Hcalled).
Qed.

(** X13.  A raw [add] keeps the cache coherent when the new signature is not
    at or above any tuple of types that the cache holds; only the cached
    tuples that the new signature takes can go stale. *)
Theorem add_keeps_coherence_off_cached_keys self f types override :
  coherent self →
  (∀ cached g, cache self !! cached = Some g → ¬ positionwise cached types) →
  coherent (final (add self f types override)).
Proof.
  intros Hco Hoff cached g. rewrite add_cache, add_methods. intros Hg.
  destruct (outcome _); [|by apply Hco].
  rewrite dispatch_loop_reverse_snoc.
  destruct (all_issubclass cached types) eqn:Hm; [|by apply Hco].
  apply all_issubclass_positionwise in Hm. by destruct (Hoff cached g).
Qed.

Lemma built_cache_empty self : built self → cache self = ∅.
Proof.
  induction 1 as [get_|self f types override _ IH|self types opts _ IH].
  - done.
  - by rewrite add_cache.
  - done.
Qed.

Lemma served_coherent self : served self → coherent self.
Proof.
  induction 1 as [self Hb|self args kwargs _ IH|self args kwargs _ IH].
  - intros types f. by rewrite (built_cache_empty self Hb), lookup_empty.
  - by apply coherent_call.
  - by apply coherent_super.
Qed.

(** X14.  When all registrations were made before the first call, or all
    through the decorator form, [__call__] goes to the most recently
    registered function whose signature is at or above the types of the
    call, whatever the cache holds, and raises when there is none. *)
Theorem served_or_decorated_most_recent self args kwargs :
  served self ∨ decorated self →
  (∀ earlier signature f later,
      methods self = earlier ++ (signature, f) :: later →
      positionwise (call_types self args kwargs) signature →
      Forall (λ m, ¬ positionwise (call_types self args kwargs) m.1) later →
      outcome (__call__ self args kwargs) = Ok (Invoke f args kwargs))
  ∧ (Forall (λ m, ¬ positionwise (call_types self args kwargs) m.1)
            (methods self) →
     ∃ msg, outcome (__call__ self args kwargs) = Raise (TypeError msg)).
Proof.
  intros Hs.
  assert (Hco : coherent self).
  { destruct Hs; [by apply served_coherent|by apply decorated_coherent]. }
  rewrite (coherent_call_outcome self args kwargs Hco). split.
  - intros earlier signature f later Heq Hsig Hlater.
    assert (dispatch_loop (call_types self args kwargs) (reverse (methods self))
            = Some f) as ->; [|done].
    apply dispatch_loop_reverse_Some. exists earlier, signature, later.
    split_and!; [done| |].
    + by apply all_issubclass_positionwise.
    + by apply not_positionwise_false.
  - intros Hno. apply not_positionwise_false in Hno.
    rewrite (proj2 (dispatch_loop_reverse_None _ _) Hno).
    destruct (call_types self args kwargs) as [|? [|? ?]]; simpl; by eexists.
Qed.

Lemma super_types_no_marker (objs : list (value cls)) :
  Forall (λ x, isinstance_super x = false) objs →
  super_types objs = Ok (type_ <$> objs).
Proof.
  induction 1 as [|x objs Hx _ IH]; simpl; [done|].
  rewrite IH. by destruct x.
Qed.

Lemma unwrap_no_marker (x : value cls) :
  isinstance_super x = false → unwrap x = x.
Proof. by destruct x. Qed.

(** X18.  On a call in which no object of the extractor and no argument is
    a [super] object, [super] does what [__call__] does: the same function
    called on the same arguments and the same receiver afterwards.  The two
    differ only when nothing matches, in the message of the [TypeError]. *)
Theorem super_without_markers_is_call self args kwargs :
  Forall (λ x, isinstance_super x = false) (get self args kwargs) →
  Forall (λ x, isinstance_super x = false) args →
  map_Forall (λ _ x, isinstance_super x = false) kwargs →
  final (super self args kwargs) = final (__call__ self args kwargs)
  ∧ (∀ tc, outcome (super self args kwargs) = Ok tc
           ↔ outcome (__call__ self args kwargs) = Ok tc)
  ∧ (outcome (super self args kwargs) = Raise (TypeError None)
     ↔ ∃ e, outcome (__call__ self args kwargs) = Raise e).
Proof.
  intros Hobjs Hargs Hkwargs.
  assert (Ha : unwrap <$> args = args).
  { rewrite <- (list_fmap_id args) at 2. apply Forall_fmap_ext_1.
    eapply Forall_impl; [exact Hargs|]. intros x. apply unwrap_no_marker. }
  assert (Hk : unwrap <$> kwargs = kwargs).
  { apply map_eq. intros k. rewrite lookup_fmap.
    destruct (kwargs !! k) as [x|] eqn:Hx; [|done]. simpl.
    by rewrite (unwrap_no_marker x (Hkwargs k x Hx)). }
  unfold super, __call__. rewrite (super_types_no_marker _ Hobjs), Ha, Hk.
  destruct (cache self !! _) as [f|]; simpl.
  { split_and!; [done|done|]. split; [done|]. by intros [? ?]. }
  destruct (dispatch_loop _ _) as [f|]; simpl.
  { split_and!; [done|done|]. split; [done|]. by intros [? ?]. }
  destruct (percent_r _); simpl; (split_and!; [done|done|]);
    (split; [by eexists|done]).
Qed.

End more_facts.

(** ** The constructors of [LightCurve] *)
Section lightcurve_facts.
Import LightCurve.
Context {pyobj : Type}.
Variable parse_time : pyobj → res pyobj.
Variable expanduser : string → string.
Variable splitext : string → string * string.
Variable lower : string → string.
Variable LightCurve_download :
  string → gmap string pyobj → string → res string.

#[local] Abbreviation from_file := (LightCurve.from_file expanduser splitext lower).
#[local] Abbreviation cls_from_file :=
  (LightCurve.cls_from_file expanduser splitext lower).
#[local] Abbreviation from_url :=
  (LightCurve.from_url expanduser splitext lower LightCurve_download).
#[local] Abbreviation cls_from_url :=
  (LightCurve.cls_from_url expanduser splitext lower LightCurve_download).
#[local] Abbreviation from_time :=
  (LightCurve.from_time parse_time expanduser splitext lower
     LightCurve_download).
#[local] Abbreviation from_yesterday :=
  (LightCurve.from_yesterday expanduser splitext lower LightCurve_download).

Lemma from_file_without_parsers (cls : klass (pyobj:=pyobj)) filename :
  def_parse_filepath cls = None →
  def_parse_csv cls = None →
  def_parse_fits cls = None →
  from_file cls filename
  = Exc (NotImplementedError
           (if bool_decide
                 (lower (splitext (expanduser filename)).2
                  ∈ [".csv"; ".txt"]%string)
            then "Generic CSV parsing not yet implemented for LightCurve"
            else "Generic FITS parsing not yet implemented for LightCurve")).
Proof.
  intros Hpath Hcsv Hfits.
  unfold LightCurve.from_file, cls_parse_filepath, _parse_filepath,
    cls_parse_csv, cls_parse_fits, _parse_csv, _parse_fits.
  rewrite Hpath, Hcsv, Hfits. by case_bool_decide.
Qed.

(** X16.  A class that takes [from_file], [from_url] and [_parse_filepath]
    from [LightCurve] and defines neither [_parse_csv] nor [_parse_fits],
    as [LightCurve] itself, cannot load anything, whatever else it defines:
    [from_file] raises [NotImplementedError] on every file name, with the
    message for CSV when the extension, in lower case, is [.csv] or [.txt]
    and the message for FITS otherwise, and [from_url], [from_time] and
    [from_yesterday] never return a light curve, whatever the download, the
    URL methods and [__init__] of the class do. *)
Theorem class_without_parsers_never_loads (cls : klass (pyobj:=pyobj))
    (filename url : string) (time : pyobj) (kwargs : gmap string pyobj) :
  def_from_file cls = None →
  def_from_url cls = None →
  def_parse_filepath cls = None →
  def_parse_csv cls = None →
  def_parse_fits cls = None →
  (lower (splitext (expanduser filename)).2 ∈ [".csv"; ".txt"]%string →
   from_file cls filename
   = Exc (NotImplementedError
            "Generic CSV parsing not yet implemented for LightCurve"))
  ∧ (lower (splitext (expanduser filename)).2 ∉ [".csv"; ".txt"]%string →
     from_file cls filename
     = Exc (NotImplementedError
              "Generic FITS parsing not yet implemented for LightCurve"))
  ∧ (∀ lc, from_url cls url kwargs ≠ Ret lc)
  ∧ (∀ lc, from_time cls time kwargs ≠ Ret lc)
  ∧ (∀ lc, from_yesterday cls ≠ Ret lc).
Proof.
  intros Hfile Hfrom_url Hpath Hcsv Hfits.
  assert (Hcls_file : ∀ p lc, cls_from_file cls p ≠ Ret lc).
  { intros p lc. unfold LightCurve.cls_from_file. rewrite Hfile.
    by rewrite from_file_without_parsers. }
  assert (Hurl : ∀ u k lc, from_url cls u k ≠ Ret lc).
  { intros u k lc. unfold LightCurve.from_url.
    destruct (cls_download _ _ _ _ _) as [p|[]]; [apply Hcls_file|done..]. }
  split_and!.
  - intros Hext. rewrite from_file_without_parsers by done.
    by rewrite bool_decide_eq_true_2.
  - intros Hext. rewrite from_file_without_parsers by done.
    by rewrite bool_decide_eq_false_2.
  - apply Hurl.
  - intros lc. unfold LightCurve.from_time.
    destruct (parse_time time) as [date|]; [|done].
    destruct (cls_get_url_for_date cls date) as [u|]; [|done].
    destruct (cls_download _ _ _ _ _) as [p|]; [|done]. apply Hcls_file.
  - intros lc. unfold LightCurve.from_yesterday.
    destruct (cls_get_default_uri cls) as [u|]; [|done].
    unfold LightCurve.cls_from_url. rewrite Hfrom_url. apply Hurl.
Qed.

End lightcurve_facts.

(** ** The further properties on the small hierarchy *)

Lemma zoo_issubclass_trans (a b c : pycls) :
  issubclass a b = true → issubclass b c = true → issubclass a c = true.
Proof. destruct a, b, c; vm_compute; congruence. Qed.

Lemma int_added_late_reachable : reachable int_added_late.
Proof. unfold int_added_late, number_only. repeat constructor. Qed.

Lemma animal_then_dog_reachable : reachable animal_then_dog.
Proof. unfold animal_then_dog. repeat constructor. Qed.

Lemma int_once_conflicts : conflicts int_once [int].
Proof.
  exists [int], "first"%string. split.
  - apply list_elem_of_singleton. reflexivity.
  - apply positionwise_dec_true. reflexivity.
Qed.

(** The stale entry for [(int,)] is the function of [(Number,)]. *)
Lemma cached_function_is_applicable_witness :
  reachable int_added_late
  ∧ cache int_added_late !! [int] = Some "on_number"%string
  ∧ ∃ signature,
      (signature, "on_number"%string) ∈ methods int_added_late
      ∧ positionwise [int] signature.
Proof.
  split_and!.
  - exact int_added_late_reachable.
  - reflexivity.
  - exact (cached_function_is_applicable int_added_late [int] "on_number"
             int_added_late_reachable eq_refl).
Defined.

(** An [int] where [(Animal,)] and [(Dog,)] are registered. *)
Lemma unmatched_dispatch_raises_witness :
  reachable animal_then_dog
  ∧ Forall (λ m, ¬ positionwise (call_types animal_then_dog [seven] ∅) m.1)
           (methods animal_then_dog)
  ∧ __call__ animal_then_dog [seven] ∅
    = Run (Raise (TypeError (Some "<type 'int'>"%string))) animal_then_dog [].
Proof.
  assert (Hno : Forall (λ m : list pycls * string,
                   ¬ positionwise (call_types animal_then_dog [seven] ∅) m.1)
                  (methods animal_then_dog)).
  { apply not_positionwise_false. repeat constructor. }
  split_and!.
  - exact animal_then_dog_reachable.
  - exact Hno.
  - exact (proj2 (proj1 (unmatched_dispatch_raises animal_then_dog [seven] ∅
                           animal_then_dog_reachable) Hno) int eq_refl).
Defined.

(** [super(object, d)]: [object.__mro__] has one entry. *)
Lemma super_raises_IndexError_iff_witness :
  super animal_then_dog [Super object rex] ∅
  = Run (Raise (IndexError (Some "tuple index out of range"%string)))
        animal_then_dog [].
Proof.
  apply (proj1 (super_raises_IndexError_iff animal_then_dog
                  [Super object rex] ∅)).
  exists object, rex. split.
  - apply list_elem_of_singleton. reflexivity.
  - reflexivity.
Defined.

(** [super] on [super(Dog, d)] and [__call__] on an [Animal]. *)
Lemma super_agrees_with_call_witness :
  super_types (get animal_then_dog [Super Dog rex] ∅)
  = Ok (call_types animal_then_dog [Obj Animal 1] ∅)
  ∧ final (super animal_then_dog [Super Dog rex] ∅)
    = final (__call__ animal_then_dog [Obj Animal 1] ∅).
Proof.
  split; [reflexivity|].
  exact (proj1 (super_agrees_with_call animal_then_dog
                  [Super Dog rex] ∅ [Obj Animal 1] ∅ eq_refl)).
Defined.

(** From the new receiver to the one with the late [(int,)]. *)
Lemma registry_only_grows_witness :
  evolves (__init__ positional) int_added_late
  ∧ get int_added_late = positional
  ∧ methods (__init__ positional : engine) `prefix_of` methods int_added_late.
Proof.
  assert (Hev : evolves (__init__ positional) int_added_late).
  { unfold int_added_late, number_only. repeat constructor. }
  split; [exact Hev|].
  pose proof (registry_only_grows _ _ Hev) as (Hget & Hpre & _).
  split; [exact Hget|exact Hpre].
Defined.

(** [(int,)] under [WARN] after [(Number,)] and [(Animal,)]. *)
Lemma add_WARN_names_last_registered_witness :
  conflicts number_then_animal [int]
  ∧ ∃ earlier signature g,
      methods number_then_animal = earlier ++ [(signature, g)]
      ∧ add number_then_animal "on_int"%string [int] WARN
        = Run (Ok ())
            (mk (get number_then_animal)
                (methods number_then_animal ++ [([int], "on_int"%string)])
                (cache number_then_animal))
            [TypeWarning ("Definition (" +:+ _fmt_t [int] +:+
                          ") overrides prior definition (" +:+
                          _fmt_t signature +:+ ").")].
Proof.
  assert (Hc : conflicts number_then_animal [int]).
  { exists [Number], "on_number"%string. split.
    - apply list_elem_of_here.
    - apply positionwise_dec_true. reflexivity. }
  split; [exact Hc|].
  exact (add_WARN_names_last_registered number_then_animal "on_int" [int] Hc).
Defined.

(** [(int,)] decorated after a call on an [int] was cached. *)
Lemma decorate_takes_effect_witness :
  (∅ : gmap string Z) !! "override"%string = None
  ∧ outcome (__call__
               (final (decorate (final (__call__ number_only [seven] ∅))
                                [int] ∅ "on_int"%string))
               [seven] ∅)
    = Ok (Invoke "on_int"%string [seven] ∅).
Proof.
  assert (Hopt : (∅ : gmap string Z) !! "override"%string = None)
    by reflexivity.
  split; [exact Hopt|].
  apply (proj2 (decorate_takes_effect
                  (final (__call__ number_only [seven] ∅))
                  [int] ∅ "on_int"%string Hopt) [seven] ∅).
  apply positionwise_dec_true. reflexivity.
Defined.

(** [(int,)] decorated under [override=FAIL] after [(int,)]. *)
Lemma decorate_refused_still_clears_witness :
  ({["override"%string := FAIL]} : gmap string Z) !! "override"%string
  = Some FAIL
  ∧ conflicts int_once [int]
  ∧ decorate int_once [int] {["override"%string := FAIL]} "second"%string
    = Run (Raise (TypeError None)) (clear_cache int_once) [].
Proof.
  assert (Hopt : ({["override"%string := FAIL]} : gmap string Z)
                   !! "override"%string = Some FAIL) by reflexivity.
  split_and!.
  - exact Hopt.
  - exact int_once_conflicts.
  - exact (decorate_refused_still_clears int_once [int]
             {["override"%string := FAIL]} "second"%string Hopt
             int_once_conflicts).
Defined.

(** [(int,)] added where [(Number,)] is registered: calls on an [int]. *)
Lemma conflict_is_shadowing_witness :
  (∃ h, outcome (__call__ (clear_cache number_only) [seven] ∅)
        = Ok (Invoke h [seven] ∅))
  ∧ outcome (__call__
               (clear_cache (final (add number_only "on_int"%string [int]
                                        SILENT)))
               [seven] ∅)
    = Ok (Invoke "on_int"%string [seven] ∅).
Proof.
  apply (conflict_is_shadowing number_only "on_int"%string [int] [Number]
           "on_number"%string [seven] ∅ zoo_issubclass_trans).
  - apply list_elem_of_singleton. reflexivity.
  - reflexivity.
  - apply positionwise_dec_true. reflexivity.
  - apply positionwise_dec_true. reflexivity.
Defined.

(** [(Animal,)] added after a call on an [int] was cached. *)
Lemma add_keeps_coherence_off_cached_keys_witness :
  coherent (final (__call__ number_only [seven] ∅))
  ∧ coherent (final (add (final (__call__ number_only [seven] ∅))
                         "on_animal"%string [Animal] SILENT)).
Proof.
  assert (Hco : coherent (final (__call__ number_only [seven] ∅))).
  { apply served_coherent, served_call, served_built.
    unfold number_only. apply built_add, built_init. }
  split; [exact Hco|].
  apply (add_keeps_coherence_off_cached_keys _ _ _ _ Hco).
  intros cached g.
  change (cache (final (__call__ number_only [seven] ∅)))
    with (<[[int] := "on_number"%string]> (∅ : gmap (list pycls) string)).
  rewrite lookup_insert. case_decide as Heq.
  - subst cached. intros _. apply positionwise_dec_false. reflexivity.
  - rewrite lookup_empty. discriminate.
Defined.

(** [(int,)] then [(Number,)], all before the first call. *)
Lemma served_or_decorated_most_recent_witness :
  served (final (__call__ number_after_int [seven] ∅))
  ∧ outcome (__call__ (final (__call__ number_after_int [seven] ∅))
                      [seven] ∅)
    = Ok (Invoke "on_number"%string [seven] ∅).
Proof.
  assert (Hs : served (final (__call__ number_after_int [seven] ∅))).
  { apply served_call, served_built. unfold number_after_int.
    apply built_add, built_add, built_init. }
  split; [exact Hs|].
  apply (proj1 (served_or_decorated_most_recent _ [seven] ∅ (or_introl Hs))
           [([int], "on_int"%string)] [Number] "on_number"%string []).
  - reflexivity.
  - apply positionwise_dec_true. reflexivity.
  - constructor.
Defined.

(** A subclass that gives a URL for yesterday and downloads, and has no
    parser: every file has the extension [.csv] here. *)
Lemma class_without_parsers_never_loads_witness :
  let lyra : LightCurve.klass (pyobj:=nat) :=
    LightCurve.Klass "LYRALightCurve"%string None
      (Some (LightCurve.Ret "http://example.org/lyra.csv"%string)) None
      (Some (λ _ _ _, LightCurve.Ret "lyra.csv"%string))
      None None None None None in
  LightCurve.def_from_file lyra = None
  ∧ LightCurve.def_from_url lyra = None
  ∧ LightCurve.def_parse_filepath lyra = None
  ∧ LightCurve.def_parse_csv lyra = None
  ∧ LightCurve.def_parse_fits lyra = None
  ∧ ∀ lc,
      LightCurve.from_yesterday id (λ s, (s, ".csv"%string)) id
        (λ _ _ _, LightCurve.Ret "other.csv"%string) lyra
      ≠ LightCurve.Ret lc.
Proof.
  intros lyra. split_and!; [reflexivity..|].
  exact (proj2 (proj2 (proj2 (proj2
           (class_without_parsers_never_loads
              LightCurve.Ret id (λ s, (s, ".csv"%string)) id
              (λ _ _ _, LightCurve.Ret "other.csv"%string)
              lyra "lyra.csv"%string "http://example.org/lyra.csv"%string
              0%nat ∅ eq_refl eq_refl eq_refl eq_refl eq_refl))))).
Defined.

(** A plain [Dog] given to [super]. *)
Lemma super_without_markers_is_call_witness :
  Forall (λ x, isinstance_super x = false) (get animal_then_dog [rex] ∅)
  ∧ outcome (super animal_then_dog [rex] ∅)
    = Ok (Invoke "on_dog"%string [rex] ∅).
Proof.
  assert (Hargs : Forall (λ x : value pycls, isinstance_super x = false) [rex])
    by (repeat constructor).
  split; [exact Hargs|].
  apply (proj1 (proj2 (super_without_markers_is_call animal_then_dog [rex] ∅
                         Hargs Hargs (map_Forall_empty _)))).
  reflexivity.
Defined.
